(** * Viseron storage component: tier validation, schema bootstrap, dispatch

    A shallow embedding of [viseron/components/storage/__init__.py] and of the
    constants of [viseron/components/storage/const.py] it reads, followed by
    the properties of the storage specification checked against it.

    Python dictionaries with a fixed key set (the validated configuration,
    a tier) are records; [vol.Invalid] and the exceptions raised by the
    database layer are values of an error type; the methods of [Storage],
    which mutate the object and call into sqlalchemy, alembic and the event
    bus, run in a state-and-exception monad over an explicit system state. *)

From stdpp Require Import base list strings.
From Stdlib Require Import ZArith Lia.

Local Open Scope string_scope.
Local Open Scope list_scope.

(** ** Constants of [const.py] *)

Definition COMPONENT : string := "storage".
Definition DATABASE_URL : string := "postgresql://localhost/viseron".
Definition DEFAULT_POLL : bool := false.
Definition DEFAULT_MOVE_ON_SHUTDOWN : bool := false.
Definition DEFAULT_CREATE_EVENT_CLIP : bool := false.

(** Modelled from the spec: [viseron.const.TEMP_DIR] is imported by the
    storage component but defined outside the files at hand.  The spec calls
    it the system temp dir, and [DESC_PATH] of [const.py] names the two
    reserved paths as [/tmp] and [/tmp/viseron]. *)
Definition TEMP_DIR : string := "/tmp/viseron".

(** ** Configuration data *)

(** [{days, hours, minutes}], each [None] by default
    ([DEFAULT_DAYS], [DEFAULT_HOURS], [DEFAULT_MINUTES]). *)
Record Age := mkAge {
  days : option Z;
  hours : option Z;
  minutes : option Z;
}.

(** [{gb, mb}], each [None] by default. *)
Record Size := mkSize {
  gb : option Z;
  mb : option Z;
}.

Record Tier := mkTier {
  path : string;
  poll : bool;
  move_on_shutdown : bool;
  min_size : Size;
  max_size : Size;
  min_age : Age;
  max_age : Age;
}.

Global Instance Age_eq_dec : EqDecision Age.
Proof. solve_decision. Defined.

Global Instance Size_eq_dec : EqDecision Size.
Proof. solve_decision. Defined.

Global Instance Tier_eq_dec : EqDecision Tier.
Proof. solve_decision. Defined.

Definition unset_age : Age := mkAge None None None.
Definition unset_size : Size := mkSize None None.

(** A tier given by its path and its [max_age] in days, every other key at
    its default. *)
Definition tier_days (p : string) (d : Z) : Tier :=
  mkTier p DEFAULT_POLL DEFAULT_MOVE_ON_SHUTDOWN
         unset_size unset_size unset_age (mkAge (Some d) None None).

(** A tier whose [max_age] is left unset. *)
Definition tier_unlimited (p : string) : Tier :=
  mkTier p DEFAULT_POLL DEFAULT_MOVE_ON_SHUTDOWN
         unset_size unset_size unset_age unset_age.

Definition DEFAULT_RECORDINGS_TIERS : list Tier := [tier_days "/" 7].
Definition DEFAULT_SNAPSHOTS_TIERS : list Tier := [tier_days "/" 7].

Inductive RecordingsType := continuous | events.
Definition DEFAULT_TYPE : RecordingsType := events.

Record RecordingsConfig := mkRecordings {
  recordings_tiers : list Tier;
  create_event_clip : bool;
  recordings_type : RecordingsType;
}.

(** [face_recognition] and [object_detection] are [None]
    ([DEFAULT_FACE_RECOGNITION], [DEFAULT_OBJECT_DETECTION]) or carry the
    tiers that override the snapshot default for that domain. *)
Record SnapshotsConfig := mkSnapshots {
  snapshots_tiers : list Tier;
  face_recognition_override : option (list Tier);
  object_detection_override : option (list Tier);
}.

(** [config[COMPONENT]]. *)
Record StorageConfig := mkStorageConfig {
  cfg_recordings : RecordingsConfig;
  cfg_snapshots : SnapshotsConfig;
}.

(** The top-level configuration; the other components' keys
    ([extra=vol.ALLOW_EXTRA]) play no part here. *)
Record Config := mkConfig {
  storage : StorageConfig;
}.

(** Modelled from the spec: [viseron.components.storage.util.calculate_age]
    is not among the files at hand.  A [max_age] is [{days, hours, minutes}]
    (spec section 6), each possibly unset, and an unset age is the zero
    duration (section 3); the result is the duration [total_seconds()]
    reads, here in whole seconds. *)
Definition calculate_age (age : Age) : Z :=
  (default 0 (days age) * 86400
   + default 0 (hours age) * 3600
   + default 0 (minutes age) * 60)%Z.

(** ** [validate_tiers] *)

(** The three [vol.Invalid] raised by [validate_tiers], told apart by their
    message; the argument is [tier[CONFIG_PATH]] of the offending tier.  The
    spec names them [ReservedPathError], [DuplicatePathError] and
    [NonMonotonicAgeError]. *)
Inductive Invalid :=
  | ReservedPathError (p : string)
  | DuplicatePathError (p : string)
  | NonMonotonicAgeError (p : string).

Definition message (e : Invalid) : string :=
  match e with
  | ReservedPathError p =>
      "Tier " +:+ p +:+ " is a reserved path and cannot be used"
  | DuplicatePathError p => "Tier " +:+ p +:+ " is defined multiple times"
  | NonMonotonicAgeError p =>
      "Tier " +:+ p +:+ " max_age must be greater than previous tier max_age"
  end.

(** The local variables that live across the iterations of the loop. *)
Record Locals := mkLocals {
  previous_tier : option Tier;
  paths : list string;
}.

Definition initial_locals : Locals := mkLocals None [].

(** One iteration of the loop body. *)
Definition check_tier (st : Locals) (tier : Tier) : Invalid + Locals :=
  if bool_decide (path tier ∈ ["/tmp"; TEMP_DIR]) then
    inl (ReservedPathError (path tier))
  else if bool_decide (path tier ∈ paths st) then
    inl (DuplicatePathError (path tier))
  else
    let paths' := (paths st ++ [path tier]) in
    match previous_tier st with
    | None => inr (mkLocals (Some tier) paths')
    | Some previous =>
        let tier_max_age := calculate_age (max_age tier) in
        let previous_tier_max_age := calculate_age (max_age previous) in
        if ((0 <? tier_max_age) && (tier_max_age <=? previous_tier_max_age))%Z
        then inl (NonMonotonicAgeError (path tier))
        else inr (mkLocals (Some tier) paths')
    end.

(** The [for tier in ...] loop, from the locals [st]. *)
Fixpoint validate_loop (st : Locals) (tiers : list Tier) : Invalid + Locals :=
  match tiers with
  | [] => inr st
  | tier :: rest =>
      match check_tier st tier with
      | inl e => inl e
      | inr st' => validate_loop st' rest
      end
  end.

(** The checks [validate_tiers] runs on one chain: the loop from fresh
    locals. *)
Definition validate_chain (tiers : list Tier) : Invalid + unit :=
  match validate_loop initial_locals tiers with
  | inl e => inl e
  | inr _ => inr tt
  end.

(** [validate_tiers(config)]: the loop runs over
    [config[COMPONENT][CONFIG_RECORDINGS][CONFIG_TIERS]] and the
    configuration is returned as it came. *)
Definition validate_tiers (config : Config) : Invalid + Config :=
  match validate_chain (recordings_tiers (cfg_recordings (storage config))) with
  | inl e => inl e
  | inr _ => inr config
  end.

(** ** Tier categories *)

Inductive Category := recordings | snapshots.

(** The subcategory literals; [recordings_files] is the subcategory
    ["recordings"] of the category of the same name. *)
Inductive Subcategory :=
  | segments
  | recordings_files
  | face_recognition
  | object_detection.

Global Instance Category_eq_dec : EqDecision Category.
Proof. solve_decision. Defined.

Global Instance Subcategory_eq_dec : EqDecision Subcategory.
Proof. solve_decision. Defined.

(** The dictionary [TIER_CATEGORIES], in the order its keys are iterated. *)
Definition TIER_CATEGORIES : list (Category * list Subcategory) :=
  [ (recordings, [segments; recordings_files]);
    (snapshots, [face_recognition; object_detection]) ].

(** [TIER_CATEGORIES[category]]. *)
Definition subcategories (category : Category) : list Subcategory :=
  match category with
  | recordings => [segments; recordings_files]
  | snapshots => [face_recognition; object_detection]
  end.

(** [self._config[category][CONFIG_TIERS]]. *)
Definition category_tiers (config : StorageConfig) (category : Category)
  : list Tier :=
  match category with
  | recordings => recordings_tiers (cfg_recordings config)
  | snapshots => snapshots_tiers (cfg_snapshots config)
  end.

(** ** The [Storage] object and the system around it *)

Record Engine := mkEngine {
  engine_url : string;
}.

(** [scoped_session(sessionmaker(bind=engine, future=True))]. *)
Record SessionFactory := mkSessionFactory {
  factory_bind : Engine;
  factory_future : bool;
}.

Record Session := mkSession {
  session_bind : Engine;
  session_future : bool;
}.

(** Calling the factory. *)
Definition new_session (f : SessionFactory) : Session :=
  mkSession (factory_bind f) (factory_future f).

Definition Camera := string.

(** The arguments a [TierHandler] is constructed with (after [vis]). *)
Record TierHandler := mkTierHandler {
  th_camera : Camera;
  th_index : nat;
  th_category : Category;
  th_subcategory : Subcategory;
  th_tier : Tier;
  th_next_tier : option Tier;
}.

Inductive Exception :=
  | RuntimeError (msg : string)
  | IndexError
  (** raised inside sqlalchemy or alembic *)
  | DatabaseError (cause : string).

Inductive LogRecord :=
  | LogDebug (msg : string)
  | LogWarning (msg : string)
  | LogError (msg : string).

(** Calls that reach the database or the migration tool, in order. *)
Inductive Call :=
  | CreateEngine (url : string)
  | Connect
  | CreateAll
  | Stamp (rev : string)
  | Upgrade (rev : string)
  | Dispose.

(** What [vis.listen_event] and [vis.register_signal_handler] were given. *)
Inductive Registration :=
  | ListenCameraRegistered
  | OnSignalStopping.

(** The attributes of a [Storage] instance. *)
Record Storage := mkStorage {
  _config : StorageConfig;
  _recordings_tiers : list Tier;
  _snapshots_tiers : list Tier;
  engine : option Engine;
  _get_session : option SessionFactory;
}.

(** The metadata store: the revision alembic recorded in it, if any, and
    whether the tables of [Base.metadata] exist. *)
Record Store := mkStore {
  revision : option string;
  tables_created : bool;
}.

(** The outcome of each call that can fail outside this component:
    [None] for success, [Some cause] for an exception. *)
Record Faults := mkFaults {
  connect_error : option string;
  create_all_error : option string;
  stamp_error : option string;
  upgrade_error : option string;
}.

Record State := mkState {
  self : Storage;
  store : Store;
  head : string;
  faults : Faults;
  calls : list Call;
  log : list LogRecord;
  registrations : list Registration;
  handlers : list TierHandler;
}.

(** ** State and exceptions *)

Definition M (A : Type) : Type := State → (Exception + A) * State.

Definition ret {A} (a : A) : M A := λ st, (inr a, st).

Definition raise {A} (e : Exception) : M A := λ st, (inl e, st).

Definition bind {A B} (m : M A) (k : A → M B) : M B :=
  λ st, match m st with
        | (inl e, st') => (inl e, st')
        | (inr a, st') => k a st'
        end.

(** [try: m except Exception as error: h error]. *)
Definition try_except {A} (m : M A) (h : Exception → M A) : M A :=
  λ st, match m st with
        | (inl e, st') => h e st'
        | (inr a, st') => (inr a, st')
        end.

Definition gets {A} (f : State → A) : M A := λ st, (inr (f st), st).

Definition modify (f : State → State) : M unit := λ st, (inr tt, f st).

Notation "x <- m ;; k" := (bind m (λ x, k))
  (at level 100, m at next level, right associativity).
Notation "m ;;; k" := (bind m (λ _, k))
  (at level 100, right associativity).

Fixpoint for_each {A} (l : list A) (body : A → M unit) : M unit :=
  match l with
  | [] => ret tt
  | x :: rest => body x ;;; for_each rest body
  end.

(** [enumerate(l)], counting from [start]. *)
Fixpoint enumerate_from {A} (start : nat) (l : list A) : list (nat * A) :=
  match l with
  | [] => []
  | x :: rest => (start, x) :: enumerate_from (S start) rest
  end.

Definition enumerate {A} (l : list A) : list (nat * A) := enumerate_from 0 l.

(** *** State updates *)

Definition set_self (f : Storage → Storage) (st : State) : State :=
  mkState (f (self st)) (store st) (head st) (faults st) (calls st) (log st)
          (registrations st) (handlers st).

Definition set_store (f : Store → Store) (st : State) : State :=
  mkState (self st) (f (store st)) (head st) (faults st) (calls st) (log st)
          (registrations st) (handlers st).

Definition add_call (c : Call) (st : State) : State :=
  mkState (self st) (store st) (head st) (faults st) (calls st ++ [c])
          (log st) (registrations st) (handlers st).

Definition add_log (r : LogRecord) (st : State) : State :=
  mkState (self st) (store st) (head st) (faults st) (calls st)
          (log st ++ [r]) (registrations st) (handlers st).

Definition add_registration (r : Registration) (st : State) : State :=
  mkState (self st) (store st) (head st) (faults st) (calls st) (log st)
          (registrations st ++ [r]) (handlers st).

Definition add_handlers (hs : list TierHandler) (st : State) : State :=
  mkState (self st) (store st) (head st) (faults st) (calls st) (log st)
          (registrations st) (handlers st ++ hs).

Definition set_engine (e : option Engine) (s : Storage) : Storage :=
  mkStorage (_config s) (_recordings_tiers s) (_snapshots_tiers s) e
            (_get_session s).

Definition set_get_session (f : option SessionFactory) (s : Storage)
  : Storage :=
  mkStorage (_config s) (_recordings_tiers s) (_snapshots_tiers s) (engine s)
            f.

(** ** Calls into sqlalchemy and alembic

    Each call is recorded; a call whose fault is set raises and leaves the
    store as it was.  The calls that can fail here are [engine.connect],
    [create_all], [command.stamp] and [command.upgrade]: the runs followed
    are those in which [create_engine], [MigrationContext.configure] and
    [ScriptDirectory.from_config] return.  A failure of [create_engine]
    would leave [create_database] with [self.engine] still [None]; nothing
    below is stated about such a run. *)

Definition fail_if (fault : Faults → option string) : M unit :=
  f <- gets (λ st, fault (faults st)) ;;
  match f with
  | Some cause => raise (DatabaseError cause)
  | None => ret tt
  end.

(** [create_engine(url)]: no connection is opened yet. *)
Definition create_engine (url : string) : M Engine :=
  modify (add_call (CreateEngine url)) ;;;
  ret (mkEngine url).

(** [engine.connect()]. *)
Definition connect (e : Engine) : M unit :=
  modify (add_call Connect) ;;;
  fail_if connect_error.

(** [MigrationContext.configure(conn).get_current_revision()]. *)
Definition get_current_revision : M (option string) :=
  gets (λ st, revision (store st)).

(** [script.ScriptDirectory.from_config(cfg).get_current_head()]. *)
Definition get_current_head : M string := gets head.

(** [Base.metadata.create_all(engine)]. *)
Definition create_all (e : Engine) : M unit :=
  modify (add_call CreateAll) ;;;
  fail_if create_all_error ;;;
  modify (set_store (λ s, mkStore (revision s) true)).

(** [command.stamp(cfg, "head")]. *)
Definition stamp_head : M unit :=
  h <- gets head ;;
  modify (add_call (Stamp h)) ;;;
  fail_if stamp_error ;;;
  modify (set_store (λ s, mkStore (Some h) (tables_created s))).

(** [command.upgrade(cfg, "head")]. *)
Definition upgrade_head : M unit :=
  h <- gets head ;;
  modify (add_call (Upgrade h)) ;;;
  fail_if upgrade_error ;;;
  modify (set_store (λ _, mkStore (Some h) true)).

(** [str(error)]. *)
Definition str (e : Exception) : string :=
  match e with
  | RuntimeError msg => msg
  | IndexError => "list index out of range"
  | DatabaseError cause => cause
  end.

(** [str(current_rev)]. *)
Definition str_revision (r : option string) : string :=
  match r with
  | None => "None"
  | Some r => r
  end.

(** ** Methods of [Storage] *)

Definition not_established : Exception :=
  RuntimeError "The database connection has not been established".

Definition _run_migrations : M unit :=
  modify (add_log (LogWarning "Upgrading database, DO NOT INTERRUPT")) ;;;
  upgrade_head ;;;
  modify (add_log (LogWarning "Database upgrade complete")).

Definition _create_new_db : M unit :=
  modify (add_log (LogDebug "Creating new database")) ;;;
  e <- gets (λ st, engine (self st)) ;;
  match e with
  | None => raise not_established
  | Some eng =>
      try_except
        (create_all eng ;;; stamp_head)
        (λ error,
           modify (add_log
             (LogError ("Failed to create new database: " +:+ str error))))
  end.

Definition create_database : M unit :=
  eng <- create_engine DATABASE_URL ;;
  modify (set_self (set_engine (Some eng))) ;;;
  connect eng ;;;
  current_rev <- get_current_revision ;;
  modify (add_log (LogDebug
    ("Current database revision: " +:+ str_revision current_rev))) ;;;
  script_head <- get_current_head ;;
  match current_rev with
  | None => _create_new_db
  | Some rev =>
      if bool_decide (rev ≠ script_head) then _run_migrations else ret tt
  end ;;;
  modify (set_self (set_get_session (Some (mkSessionFactory eng true)))).

Definition get_session : M Session :=
  f <- gets (λ st, _get_session (self st)) ;;
  match f with
  | None => raise not_established
  | Some factory => ret (new_session factory)
  end.

(** [Storage.__init__(vis, config)]. *)
Definition Storage_init (config : StorageConfig) : M unit :=
  modify (set_self (λ _,
    mkStorage config
              (recordings_tiers (cfg_recordings config))
              (snapshots_tiers (cfg_snapshots config))
              None None)) ;;;
  create_database ;;;
  modify (add_registration ListenCameraRegistered) ;;;
  modify (add_registration OnSignalStopping).

(** [setup(vis, config)]. *)
Definition setup (config : Config) : M bool :=
  Storage_init (storage config) ;;;
  ret true.

(** [tiers[index + 1]]. *)
Definition subscript (tiers : list Tier) (i : nat) : M Tier :=
  match tiers !! i with
  | Some t => ret t
  | None => raise IndexError
  end.

Definition _camera_registered (camera : Camera) : M unit :=
  for_each (TIER_CATEGORIES.*1) (λ category,
    tiers <- gets (λ st, category_tiers (_config (self st)) category) ;;
    for_each (enumerate tiers) (λ '(index, tier),
      next_tier <-
        (if (Z.of_nat index =? Z.of_nat (length tiers) - 1)%Z
         then ret None
         else (t <- subscript tiers (index + 1) ;; ret (Some t))) ;;
      for_each (subcategories category) (λ subcategory,
        modify (add_handlers
          [mkTierHandler camera index category subcategory tier
                         next_tier])))).

Definition _shutdown : M unit :=
  e <- gets (λ st, engine (self st)) ;;
  match e with
  | Some _ => modify (add_call Dispose)
  | None => ret tt
  end.

(** *** Path accessors

    [Storage.get_recordings_path] and [Storage.get_segments_path] hand the
    first recordings tier and the camera to the functions of the same name
    in [viseron.components.storage.util], which are defined outside the
    files at hand and are taken as parameters. *)

Section PathAccessors.

Variable util_get_recordings_path : Tier → Camera → string.
Variable util_get_segments_path : Tier → Camera → string.

Definition get_recordings_path (camera : Camera) : M string :=
  tiers <- gets (λ st, _recordings_tiers (self st)) ;;
  tier <- subscript tiers 0 ;;
  ret (util_get_recordings_path tier camera).

Definition get_segments_path (camera : Camera) : M string :=
  tiers <- gets (λ st, _recordings_tiers (self st)) ;;
  tier <- subscript tiers 0 ;;
  ret (util_get_segments_path tier camera).

End PathAccessors.

(** ** Vocabulary of the specification *)

(** A path [validate_tiers] refuses. *)
Definition reserved (p : string) : Prop := p ∈ ["/tmp"; TEMP_DIR].

Global Instance reserved_dec p : Decision (reserved p).
Proof. unfold reserved. apply _. Defined.

(** The [max_age] of a tier, in seconds. *)
Definition age (t : Tier) : Z := calculate_age (max_age t).

(** Every adjacent pair whose second tier has a real bound is strictly
    increasing in [max_age]. *)
Definition adjacent_monotonic (tiers : list Tier) : Prop :=
  ∀ i a b, tiers !! i = Some a → tiers !! (S i) = Some b →
    (0 < age b)%Z → (age a < age b)%Z.

(** The same, by recursion along the chain from the tier before it. *)
Fixpoint monotonic_from (previous : option Tier) (tiers : list Tier) : Prop :=
  match tiers with
  | [] => True
  | t :: rest =>
      match previous with
      | None => True
      | Some p => ((0 < age t)%Z → (age p < age t)%Z)
      end ∧ monotonic_from (Some t) rest
  end.

(** Tiers that agree, on path and on [max_age] in seconds. *)
Definition same_path_and_age (a b : Tier) : Prop :=
  path a = path b ∧ age a = age b.

(** The locals after the loop has run over [tiers] without raising. *)
Definition locals_after (st : Locals) (tiers : list Tier) : Locals :=
  mkLocals (from_option Some (previous_tier st) (last tiers))
           (paths st ++ (path <$> tiers)).

(** The override configured for a subcategory, if any. *)
Definition subcategory_override (config : StorageConfig) (sub : Subcategory)
  : option (list Tier) :=
  match sub with
  | face_recognition => face_recognition_override (cfg_snapshots config)
  | object_detection => object_detection_override (cfg_snapshots config)
  | segments | recordings_files => None
  end.

(** The resolution in the words of the specification: the subcategory
    override if present, else the category default. *)
Definition effective_chain_spec (config : StorageConfig)
    (category : Category) (sub : Subcategory) : list Tier :=
  default (category_tiers config category) (subcategory_override config sub).

(** The handlers of one (category, subcategory) pair among [hs]. *)
Definition handlers_of (category : Category) (sub : Subcategory)
    (hs : list TierHandler) : list TierHandler :=
  filter (λ h, th_category h = category ∧ th_subcategory h = sub) hs.

(** The handlers one (category, subcategory) pair gets from a chain. *)
Definition chain_handlers (camera : Camera) (category : Category)
    (sub : Subcategory) (tiers : list Tier) : list TierHandler :=
  (λ '(i, t), mkTierHandler camera i category sub t (tiers !! S i))
    <$> enumerate tiers.

(** The handlers one tier of a chain gives rise to. *)
Definition tier_handlers (camera : Camera) (category : Category)
    (tiers : list Tier) (it : nat * Tier) : list TierHandler :=
  let '(index, tier) := it in
  subcategory ← subcategories category;
  [mkTierHandler camera index category subcategory tier (tiers !! S index)].

(** The handlers [_camera_registered] constructs, in construction order. *)
Definition constructed (camera : Camera) (config : StorageConfig)
  : list TierHandler :=
  category ← TIER_CATEGORIES.*1;
  enumerate (category_tiers config category)
    ≫= tier_handlers camera category (category_tiers config category).

(** The same state with the database layer behaving as [f] from now on. *)
Definition set_faults (f : Faults) (st : State) : State :=
  mkState (self st) (store st) (head st) f (calls st) (log st)
          (registrations st) (handlers st).

(** A state in which nothing has happened yet: no [Storage] attribute set,
    nothing recorded. *)
Definition blank_state (config : StorageConfig) (s : Store) (h : string)
    (f : Faults) : State :=
  mkState (mkStorage config [] [] None None) s h f [] [] [] [].

Definition no_faults : Faults := mkFaults None None None None.

(** A configuration whose recordings chain is the default and whose
    snapshots chain is the single tier [/tmp]. *)
Definition snapshots_in_tmp : Config :=
  mkConfig (mkStorageConfig
    (mkRecordings DEFAULT_RECORDINGS_TIERS DEFAULT_CREATE_EVENT_CLIP
                  DEFAULT_TYPE)
    (mkSnapshots [tier_days "/tmp" 7] None None)).

(** Two recordings tiers, one snapshots tier, and an override of two tiers
    for face recognition. *)
Definition face_override_config : StorageConfig :=
  mkStorageConfig
    (mkRecordings [tier_days "/ssd" 1; tier_days "/hdd" 7]
                  DEFAULT_CREATE_EVENT_CLIP DEFAULT_TYPE)
    (mkSnapshots [tier_days "/snapshots" 7]
                 (Some [tier_days "/faces" 1; tier_days "/archive" 30])
                 None).

(** * Properties *)

(** ** The validation loop *)

Section ValidationLoop.

Implicit Types (st : Locals) (tier t : Tier) (tiers : list Tier).

Lemma check_tier_inr st tier st' :
  check_tier st tier = inr st' ↔
    ¬ reserved (path tier) ∧ (path tier ∉ paths st) ∧
    match previous_tier st with
    | None => True
    | Some p => (0 < age tier)%Z → (age p < age tier)%Z
    end ∧
    st' = mkLocals (Some tier) (paths st ++ [path tier]).
Proof.
  unfold check_tier, reserved, age.
  repeat case_bool_decide; try (split; [done | tauto]).
  destruct (previous_tier st) as [p|].
  - destruct (0 <? _)%Z eqn:Hpos; destruct (_ <=? _)%Z eqn:Hle; simpl;
      split; try done; try (intros [= <-]; repeat split; try done; lia);
      try (intros (_ & _ & _ & ->); done).
    intros (_ & _ & Hm & _). lia.
  - split; [intros [= <-]; done | intros (_ & _ & _ & ->); done].
Qed.

Lemma check_tier_reserved st tier :
  reserved (path tier) →
  check_tier st tier = inl (ReservedPathError (path tier)).
Proof. intros H. unfold check_tier, reserved in *. by rewrite bool_decide_eq_true_2. Qed.

Lemma check_tier_duplicate st tier :
  ¬ reserved (path tier) → path tier ∈ paths st →
  check_tier st tier = inl (DuplicatePathError (path tier)).
Proof.
  intros Hr Hd. unfold check_tier, reserved in *.
  rewrite bool_decide_eq_false_2 by done. by rewrite bool_decide_eq_true_2.
Qed.

Lemma check_tier_non_monotonic st tier p :
  ¬ reserved (path tier) → path tier ∉ paths st →
  previous_tier st = Some p → (0 < age tier ≤ age p)%Z →
  check_tier st tier = inl (NonMonotonicAgeError (path tier)).
Proof.
  intros Hr Hd Hp [Hpos Hle]. unfold check_tier, reserved, age in *.
  rewrite !bool_decide_eq_false_2 by done. rewrite Hp.
  replace (0 <? _)%Z with true by (symmetry; lia).
  replace (_ <=? _)%Z with true by (symmetry; lia). done.
Qed.

Lemma validate_loop_app st tiers1 tiers2 :
  validate_loop st (tiers1 ++ tiers2) =
    match validate_loop st tiers1 with
    | inl e => inl e
    | inr st' => validate_loop st' tiers2
    end.
Proof.
  revert st. induction tiers1 as [|t tiers1 IH]; intros st; simpl; [done|].
  destruct (check_tier st t); [done | apply IH].
Qed.

Lemma locals_after_cons st t tiers :
  locals_after (mkLocals (Some t) (paths st ++ [path t])) tiers =
  locals_after st (t :: tiers).
Proof.
  unfold locals_after. simpl. f_equal.
  - rewrite last_cons. by destruct (last tiers).
  - by rewrite <- app_assoc.
Qed.

(** The loop runs to its end exactly on the chains that meet the three
    conditions, and then holds the last tier and all paths. *)
Lemma validate_loop_inr st tiers st' :
  validate_loop st tiers = inr st' ↔
    Forall (λ t, ¬ reserved (path t)) tiers ∧
    NoDup (path <$> tiers) ∧
    (∀ t, t ∈ tiers → path t ∉ paths st) ∧
    monotonic_from (previous_tier st) tiers ∧
    st' = locals_after st tiers.
Proof.
  revert st. induction tiers as [|t tiers IH]; intros st; simpl.
  - unfold locals_after. simpl. rewrite app_nil_r. destruct st as [p ps]; simpl.
    split.
    + intros [= <-]. repeat split; auto using NoDup_nil_2.
      intros t Ht. by apply elem_of_nil in Ht.
    + intros (_ & _ & _ & _ & ->). done.
  - destruct (check_tier st t) as [e|st1] eqn:Hc.
    + split; [done|].
      intros (Hres & Hnd & Hfresh & [Hm _] & _). exfalso.
      assert (check_tier st t = inr (mkLocals (Some t) (paths st ++ [path t])))
        as Hok; [|congruence].
      apply check_tier_inr. repeat split.
      * by inversion Hres.
      * apply Hfresh. left.
      * done.
    + apply check_tier_inr in Hc as (Hr & Hf & Hm & ->).
      rewrite IH. simpl. rewrite locals_after_cons.
      split.
      * intros (Hres & Hnd & Hfresh & Hmono & ->).
        repeat split; try done.
        -- by constructor.
        -- constructor; [|done].
           intros (t' & Heq & Hin)%list_elem_of_fmap.
           apply (Hfresh t' Hin). rewrite <- Heq. apply elem_of_app. right. left.
        -- intros t' [->|Hin]%elem_of_cons; [done|].
           intros Hp. apply (Hfresh t' Hin). apply elem_of_app. by left.
      * intros (Hres & Hnd & Hfresh & [_ Hmono] & ->).
        inversion Hres; subst. inversion Hnd; subst.
        repeat split; try done.
        intros t' Hin [Hp|Hp]%elem_of_app.
        -- apply (Hfresh t'); [by right | done].
        -- apply list_elem_of_singleton in Hp.
           match goal with H : path t ∉ _ |- _ => apply H end.
           rewrite <- Hp. apply list_elem_of_fmap. eauto.
Qed.

Lemma monotonic_from_some p tiers :
  monotonic_from (Some p) tiers ↔ adjacent_monotonic (p :: tiers).
Proof.
  unfold adjacent_monotonic. revert p.
  induction tiers as [|t tiers IH]; intros p; simpl.
  - split; [|done]. intros _ [|i] a b; simpl; [done|].
    by rewrite lookup_nil.
  - rewrite IH. split.
    + intros [Hp Hrest] [|i] a b; simpl.
      * intros [= <-] [= <-]. done.
      * apply Hrest.
    + intros H. split.
      * apply (H 0 p t); done.
      * intros i a b. apply (H (S i) a b).
Qed.

Lemma monotonic_from_adjacent tiers :
  monotonic_from None tiers ↔ adjacent_monotonic tiers.
Proof.
  destruct tiers as [|t tiers]; simpl.
  - split; [|done]. intros _ i a b. by rewrite lookup_nil.
  - rewrite monotonic_from_some. tauto.
Qed.

Lemma validate_chain_inr tiers :
  validate_chain tiers = inr tt ↔
    Forall (λ t, ¬ reserved (path t)) tiers ∧
    NoDup (path <$> tiers) ∧
    adjacent_monotonic tiers.
Proof.
  unfold validate_chain.
  destruct (validate_loop initial_locals tiers) as [e|st'] eqn:Hl.
  - split; [done|]. intros (Hr & Hn & Hm). exfalso.
    assert (validate_loop initial_locals tiers =
            inr (locals_after initial_locals tiers)) as Hok; [|congruence].
    apply validate_loop_inr. repeat split; try done.
    + intros t _. simpl. apply not_elem_of_nil.
    + by apply monotonic_from_adjacent.
  - apply validate_loop_inr in Hl as (Hr & Hn & _ & Hm & _).
    split; [|done]. intros _. repeat split; try done.
    by apply monotonic_from_adjacent.
Qed.

(** Where the loop stands after a prefix that passed. *)
Lemma validate_chain_prefix pre :
  validate_chain pre = inr tt →
  validate_loop initial_locals pre = inr (mkLocals (last pre) (path <$> pre)).
Proof.
  unfold validate_chain.
  destruct (validate_loop initial_locals pre) as [e|st'] eqn:Hl; [done|].
  intros _. apply validate_loop_inr in Hl as (_ & _ & _ & _ & ->).
  unfold locals_after. simpl. f_equal. f_equal. by destruct (last pre).
Qed.

(** The first tier that fails a check decides the outcome. *)
Lemma validate_chain_first_failure pre t post e :
  validate_chain pre = inr tt →
  check_tier (mkLocals (last pre) (path <$> pre)) t = inl e →
  validate_chain (pre ++ t :: post) = inl e.
Proof.
  intros Hpre Hc. unfold validate_chain.
  rewrite validate_loop_app, (validate_chain_prefix _ Hpre). simpl.
  by rewrite Hc.
Qed.

Lemma validate_chain_snoc pre t :
  validate_chain pre = inr tt →
  validate_chain (pre ++ [t]) =
    match check_tier (mkLocals (last pre) (path <$> pre)) t with
    | inl e => inl e
    | inr _ => inr tt
    end.
Proof.
  intros Hpre. unfold validate_chain.
  rewrite validate_loop_app, (validate_chain_prefix _ Hpre). simpl.
  by destruct (check_tier _ t).
Qed.


Lemma check_tier_inl st tier e :
  check_tier st tier = inl e →
    (reserved (path tier) ∧ e = ReservedPathError (path tier)) ∨
    (¬ reserved (path tier) ∧ path tier ∈ paths st ∧
     e = DuplicatePathError (path tier)) ∨
    (¬ reserved (path tier) ∧ (path tier ∉ paths st) ∧
     (∃ p, previous_tier st = Some p ∧ (0 < age tier ≤ age p)%Z) ∧
     e = NonMonotonicAgeError (path tier)).
Proof.
  unfold check_tier, reserved, age.
  repeat case_bool_decide; try (intros [= <-]; tauto).
  destruct (previous_tier st) as [p|]; [|done].
  destruct (0 <? _)%Z eqn:Hpos; destruct (_ <=? _)%Z eqn:Hle; simpl;
    try done.
  intros [= <-]. right; right. repeat split; try done.
  exists p. split; [done | lia].
Qed.

(** A chain that fails has a first tier that fails a check, after a prefix
    that passes. *)
Lemma validate_loop_inl st tiers e :
  validate_loop st tiers = inl e →
  ∃ pre t post st',
    tiers = pre ++ t :: post ∧ validate_loop st pre = inr st' ∧
    check_tier st' t = inl e.
Proof.
  revert st. induction tiers as [|t tiers IH]; intros st; simpl; [done|].
  destruct (check_tier st t) as [e'|st1] eqn:Hc.
  - intros [= ->]. by exists [], t, tiers, st.
  - intros (pre & t' & post & st' & -> & Hpre & Hc')%IH.
    exists (t :: pre), t', post, st'. simpl. by rewrite Hc.
Qed.

Lemma validate_chain_inl tiers e :
  validate_chain tiers = inl e →
  ∃ pre t post,
    tiers = pre ++ t :: post ∧ validate_chain pre = inr tt ∧
    check_tier (mkLocals (last pre) (path <$> pre)) t = inl e.
Proof.
  unfold validate_chain at 1.
  destruct (validate_loop initial_locals tiers) as [e'|] eqn:Hl; [|done].
  intros [= ->].
  apply validate_loop_inl in Hl as (pre & t & post & st' & -> & Hpre & Hc).
  exists pre, t, post. split; [done|].
  assert (validate_chain pre = inr tt) as Hok
    by (unfold validate_chain; by rewrite Hpre).
  split; [done|]. rewrite (validate_chain_prefix _ Hok) in Hpre. congruence.
Qed.

Lemma validate_chain_total tiers :
  validate_chain tiers = inr tt ∨ ∃ e, validate_chain tiers = inl e.
Proof. destruct (validate_chain tiers) as [e|[]]; eauto. Qed.

(** The pair at the end of a prefix and the tier after it are adjacent. *)
Lemma adjacent_at_last pre p t post :
  last pre = Some p →
  (pre ++ t :: post) !! (length pre - 1) = Some p ∧
  (pre ++ t :: post) !! S (length pre - 1) = Some t.
Proof.
  intros Hl. rewrite last_lookup in Hl.
  assert (length pre ≠ 0) by (destruct pre; [done | simpl; lia]).
  replace (Nat.pred (length pre)) with (length pre - 1) in Hl by lia.
  split.
  - by apply lookup_app_l_Some.
  - replace (S (length pre - 1)) with (length pre) by lia.
    by apply list_lookup_middle.
Qed.

End ValidationLoop.

(** ** Claims on [validate_tiers] *)

(** C1.  [validate_tiers] runs its checks on the recordings chain only: its
    outcome is that of the recordings chain whatever the snapshots chain
    holds, and the configuration [snapshots_in_tmp], whose snapshots chain
    has the reserved path [/tmp] and fails the checks when they are run on
    it, is accepted and returned unchanged. *)
Theorem validate_tiers_skips_snapshots :
  (∀ r s,
     validate_tiers (mkConfig (mkStorageConfig r s)) =
       match validate_chain (recordings_tiers r) with
       | inl e => inl e
       | inr _ => inr (mkConfig (mkStorageConfig r s))
       end) ∧
  validate_chain (snapshots_tiers (cfg_snapshots (storage snapshots_in_tmp)))
    = inl (ReservedPathError "/tmp") ∧
  validate_tiers snapshots_in_tmp = inr snapshots_in_tmp.
Proof. split; [done|]. split; vm_compute; reflexivity. Qed.

(** *** Which error a failing chain raises *)

Lemma not_reserved_in tiers t :
  Forall (λ t, ¬ reserved (path t)) tiers → t ∈ tiers → ¬ reserved (path t).
Proof. intros H Hin. by apply (proj1 (Forall_forall _ _) H). Qed.

Lemma repeated_path_not_NoDup (pre post : list Tier) t :
  path t ∈ path <$> pre → ¬ NoDup (path <$> pre ++ t :: post).
Proof.
  intros Hin. rewrite fmap_app, fmap_cons.
  intros (_ & Hdisj & _)%NoDup_app. apply (Hdisj _ Hin). left.
Qed.

Lemma non_monotonic_pair (pre post : list Tier) p t :
  last pre = Some p → (0 < age t ≤ age p)%Z →
  ¬ adjacent_monotonic (pre ++ t :: post).
Proof.
  intros Hl [Hpos Hle] Hm.
  destruct (adjacent_at_last pre p t post Hl) as [Ha Hb].
  specialize (Hm _ _ _ Ha Hb Hpos). lia.
Qed.

(** When the paths of a chain are distinct and none is reserved, the only
    error left is the one on [max_age]. *)
Lemma clean_paths_non_monotonic tiers :
  Forall (λ t, ¬ reserved (path t)) tiers → NoDup (path <$> tiers) →
  ¬ adjacent_monotonic tiers →
  ∃ p, validate_chain tiers = inl (NonMonotonicAgeError p).
Proof.
  intros Hr Hn Hm.
  destruct (validate_chain_total tiers) as [Hok|[e He]].
  { apply validate_chain_inr in Hok as (_ & _ & ?). done. }
  destruct (validate_chain_inl _ _ He) as (pre & t & post & -> & _ & Hc).
  apply check_tier_inl in Hc as [[Hres _]|[(_ & Hdup & _)|(_ & _ & _ & ->)]].
  - exfalso. apply (not_reserved_in _ t Hr); [|done].
    apply elem_of_app. right. left.
  - exfalso. simpl in Hdup. by apply (repeated_path_not_NoDup pre post t).
  - eauto.
Qed.

(** C2, the input on which the claim fails: the pair (7d, 3d) is not
    increasing, yet the error raised is the one for the repeated path,
    whose check comes first. *)
Lemma non_monotonic_chain_raises_duplicate :
  let chain := [tier_days "/a" 7; tier_days "/a" 3] in
  ¬ adjacent_monotonic chain ∧
  validate_chain chain = inl (DuplicatePathError "/a") ∧
  ¬ ∃ p, validate_chain chain = inl (NonMonotonicAgeError p).
Proof.
  intros chain. split; [|split].
  - intros H. specialize (H 0 _ _ eq_refl eq_refl). vm_compute in H.
    discriminate (H eq_refl).
  - vm_compute. reflexivity.
  - intros [p Hp]. vm_compute in Hp. discriminate Hp.
Qed.

(** C2, amended.  Validation of a chain succeeds only if every adjacent
    pair whose second tier has a real (positive) [max_age] is strictly
    increasing; a chain that breaks this fails, and it fails with
    [NonMonotonicAgeError] when its paths are distinct and none is reserved,
    and more generally whenever the offending tier is the first to fail a
    check (its path checks come before its age check).  A successor whose
    [max_age] is zero is exempt.  [{/a, 3d}, {/b, 0}] validates and
    [{/a, 7d}, {/b, 3d}] fails with [NonMonotonicAgeError]. *)
Theorem validate_chain_monotonic_age :
  (∀ tiers, validate_chain tiers = inr tt → adjacent_monotonic tiers) ∧
  (∀ tiers, ¬ adjacent_monotonic tiers → ∃ e, validate_chain tiers = inl e) ∧
  (∀ tiers,
     Forall (λ t, ¬ reserved (path t)) tiers → NoDup (path <$> tiers) →
     ¬ adjacent_monotonic tiers →
     ∃ p, validate_chain tiers = inl (NonMonotonicAgeError p)) ∧
  (∀ pre a b post,
     validate_chain (pre ++ [a]) = inr tt →
     ¬ reserved (path b) → path b ∉ path <$> pre ++ [a] →
     (0 < age b ≤ age a)%Z →
     validate_chain (pre ++ a :: b :: post)
       = inl (NonMonotonicAgeError (path b))) ∧
  (∀ pre a b,
     validate_chain (pre ++ [a]) = inr tt →
     ¬ reserved (path b) → path b ∉ path <$> pre ++ [a] →
     age b = 0%Z →
     validate_chain (pre ++ [a; b]) = inr tt) ∧
  validate_chain [tier_days "/a" 3; tier_days "/b" 0] = inr tt ∧
  validate_chain [tier_days "/a" 7; tier_days "/b" 3]
    = inl (NonMonotonicAgeError "/b").
Proof.
  repeat split.
  - by intros tiers (_ & _ & ?)%validate_chain_inr.
  - intros tiers Hm. destruct (validate_chain_total tiers) as [Hok|]; [|done].
    by apply validate_chain_inr in Hok as (_ & _ & ?).
  - apply clean_paths_non_monotonic.
  - intros pre a b post Hok Hr Hf Hage.
    replace (pre ++ a :: b :: post) with ((pre ++ [a]) ++ b :: post)
      by (by rewrite <- app_assoc).
    apply validate_chain_first_failure; [done|].
    apply (check_tier_non_monotonic _ _ a); try done.
    simpl. by rewrite last_snoc.
  - intros pre a b Hok Hr Hf Hage.
    replace (pre ++ [a; b]) with ((pre ++ [a]) ++ [b])
      by (by rewrite <- app_assoc).
    rewrite validate_chain_snoc by done.
    destruct (check_tier _ b) as [e|] eqn:Hc; [|done].
    apply check_tier_inl in Hc
      as [[? _]|[(_ & ? & _)|(_ & _ & (p & _ & ?) & _)]]; try done. lia.
Qed.

(** The amended claim at [{/a, 7d}, {/b, 3d}]. *)
Lemma validate_chain_monotonic_age_witness :
  ∃ p, validate_chain [tier_days "/a" 7; tier_days "/b" 3]
         = inl (NonMonotonicAgeError p).
Proof.
  apply (proj1 (proj2 (proj2 validate_chain_monotonic_age))).
  - repeat apply Forall_cons_2; try apply Forall_nil_2;
      apply (bool_decide_eq_false_1 _); reflexivity.
  - apply (bool_decide_unpack _). vm_compute. exact I.
  - intros H. specialize (H 0%nat _ _ eq_refl eq_refl). vm_compute in H.
    discriminate (H eq_refl).
Defined.

(** C3, the input on which the claim fails: an unlimited tier followed by a
    further tier passes validation. *)
Lemma unlimited_tier_before_another_validates :
  let chain := [tier_unlimited "/a"; tier_days "/b" 7] in
  age (tier_unlimited "/a") = 0%Z ∧ validate_chain chain = inr tt.
Proof. split; vm_compute; reflexivity. Qed.

(** C3, amended.  Validation does not require an unlimited tier to be last:
    when a chain that passes validation ends in a tier whose [max_age] is
    zero or unset, the chain with one more tier after it passes as well,
    whatever the [max_age] of the new tier, provided its path is neither
    reserved nor already in the chain. *)
Theorem unlimited_tier_need_not_be_last pre u t :
  validate_chain (pre ++ [u]) = inr tt →
  age u = 0%Z →
  ¬ reserved (path t) → path t ∉ path <$> pre ++ [u] →
  validate_chain (pre ++ [u; t]) = inr tt.
Proof.
  intros Hok Hu Hr Hf.
  replace (pre ++ [u; t]) with ((pre ++ [u]) ++ [t])
    by (by rewrite <- app_assoc).
  rewrite validate_chain_snoc by done.
  destruct (check_tier _ t) as [e|] eqn:Hc; [|done].
  apply check_tier_inl in Hc
    as [[? _]|[(_ & ? & _)|(_ & _ & (p & Hp & ?) & _)]]; try done.
  simpl in Hp. rewrite last_snoc in Hp. injection Hp as <-. lia.
Qed.

(** The amended claim at [{/a, unset}, {/b, 7d}]. *)
Lemma unlimited_tier_need_not_be_last_witness :
  validate_chain ([] ++ [tier_unlimited "/a"; tier_days "/b" 7]) = inr tt.
Proof.
  apply unlimited_tier_need_not_be_last.
  - vm_compute. reflexivity.
  - vm_compute. reflexivity.
  - apply (bool_decide_eq_false_1 _). reflexivity.
  - apply (bool_decide_eq_false_1 _). reflexivity.
Defined.

(** C4, the input on which the claim fails: the path [/a] occurs twice, but
    the loop stops at [/b], whose [max_age] is not above the one before. *)
Lemma repeated_path_chain_raises_non_monotonic :
  let chain := [tier_days "/a" 7; tier_days "/b" 3; tier_days "/a" 9] in
  ¬ NoDup (path <$> chain) ∧
  validate_chain chain = inl (NonMonotonicAgeError "/b") ∧
  ¬ ∃ p, validate_chain chain = inl (DuplicatePathError p).
Proof.
  intros chain. split; [|split].
  - apply (bool_decide_eq_false_1 _). reflexivity.
  - vm_compute. reflexivity.
  - intros [p Hp]. vm_compute in Hp. discriminate Hp.
Qed.

(** C4, amended.  Every chain in which a path occurs more than once fails
    validation.  It fails with [DuplicatePathError] when no path is reserved
    and the ages are monotonic, and more generally whenever the tiers before
    the repetition pass and the repeated path is not reserved; the error
    then names the first path met a second time in chain order.
    [{/a, 3d}, {/a, 7d}] fails with [DuplicatePathError]. *)
Theorem validate_chain_duplicate_path :
  (∀ tiers, ¬ NoDup (path <$> tiers) → ∃ e, validate_chain tiers = inl e) ∧
  (∀ tiers,
     Forall (λ t, ¬ reserved (path t)) tiers → adjacent_monotonic tiers →
     ¬ NoDup (path <$> tiers) →
     ∃ p, validate_chain tiers = inl (DuplicatePathError p)) ∧
  (∀ pre t post,
     validate_chain pre = inr tt →
     ¬ reserved (path t) → path t ∈ path <$> pre →
     validate_chain (pre ++ t :: post) = inl (DuplicatePathError (path t))) ∧
  (∀ tiers p,
     validate_chain tiers = inl (DuplicatePathError p) →
     ∃ pre t post,
       tiers = pre ++ t :: post ∧ path t = p ∧
       NoDup (path <$> pre) ∧ p ∈ path <$> pre) ∧
  validate_chain [tier_days "/a" 3; tier_days "/a" 7]
    = inl (DuplicatePathError "/a").
Proof.
  repeat split.
  - intros tiers Hn. destruct (validate_chain_total tiers) as [Hok|]; [|done].
    by apply validate_chain_inr in Hok as (_ & ? & _).
  - intros tiers Hr Hm Hn.
    destruct (validate_chain_total tiers) as [Hok|[e He]].
    { by apply validate_chain_inr in Hok as (_ & ? & _). }
    destruct (validate_chain_inl _ _ He) as (pre & t & post & -> & _ & Hc).
    apply check_tier_inl in Hc
      as [[Hres _]|[(_ & _ & ->)|(_ & _ & (p & Hp & Hage) & _)]].
    + exfalso. apply (not_reserved_in _ t Hr); [|done].
      apply elem_of_app. right. left.
    + eauto.
    + exfalso. by apply (non_monotonic_pair pre post p t).
  - intros pre t post Hok Hr Hin.
    apply validate_chain_first_failure; [done|].
    by apply check_tier_duplicate.
  - intros tiers p He.
    destruct (validate_chain_inl _ _ He) as (pre & t & post & -> & Hok & Hc).
    apply check_tier_inl in Hc
      as [[_ [=]]|[(_ & Hin & [= ->])|(_ & _ & _ & [=])]].
    exists pre, t, post. repeat split; try done.
    by apply validate_chain_inr in Hok as (_ & ? & _).
Qed.

(** The amended claim at [{/a, 3d}, {/a, 7d}]. *)
Lemma validate_chain_duplicate_path_witness :
  ∃ e, validate_chain [tier_days "/a" 3; tier_days "/a" 7] = inl e.
Proof.
  apply (proj1 validate_chain_duplicate_path).
  apply (bool_decide_eq_false_1 _). reflexivity.
Defined.

(** C5, the input on which the claim fails: the chain holds the tier
    [/tmp], but the loop stops before it, at the second [/a]. *)
Lemma reserved_path_chain_raises_duplicate :
  let chain := [tier_days "/a" 3; tier_days "/a" 7; tier_days "/tmp" 9] in
  (∃ t, t ∈ chain ∧ reserved (path t)) ∧
  validate_chain chain = inl (DuplicatePathError "/a") ∧
  ¬ ∃ p, validate_chain chain = inl (ReservedPathError p).
Proof.
  intros chain. split; [|split].
  - exists (tier_days "/tmp" 9). split.
    + apply (bool_decide_unpack _). vm_compute. exact I.
    + apply (bool_decide_unpack _). vm_compute. exact I.
  - vm_compute. reflexivity.
  - intros [p Hp]. vm_compute in Hp. discriminate Hp.
Qed.

(** C5, amended.  The reserved paths are [/tmp] and [TEMP_DIR].  Every
    chain holding a tier with a reserved path fails validation.  It fails
    with [ReservedPathError] when its paths are distinct and its ages
    monotonic, and more generally whenever the tiers before the reserved one
    pass.  [{/tmp, 7d}] fails with [ReservedPathError]. *)
Theorem validate_chain_reserved_path :
  (∀ p, reserved p ↔ p = "/tmp" ∨ p = TEMP_DIR) ∧
  (∀ tiers t, t ∈ tiers → reserved (path t) →
     ∃ e, validate_chain tiers = inl e) ∧
  (∀ tiers t, t ∈ tiers → reserved (path t) →
     NoDup (path <$> tiers) → adjacent_monotonic tiers →
     ∃ p, reserved p ∧ validate_chain tiers = inl (ReservedPathError p)) ∧
  (∀ pre t post,
     validate_chain pre = inr tt → reserved (path t) →
     validate_chain (pre ++ t :: post) = inl (ReservedPathError (path t))) ∧
  validate_chain [tier_days "/tmp" 7] = inl (ReservedPathError "/tmp").
Proof.
  repeat split.
  - unfold reserved. rewrite !elem_of_cons, elem_of_nil. tauto.
  - unfold reserved. rewrite !elem_of_cons, elem_of_nil. tauto.
  - intros tiers t Hin Hres.
    destruct (validate_chain_total tiers) as [Hok|]; [|done].
    apply validate_chain_inr in Hok as (Hr & _ & _).
    by destruct (not_reserved_in _ t Hr).
  - intros tiers t Hin Hres Hn Hm.
    destruct (validate_chain_total tiers) as [Hok|[e He]].
    { apply validate_chain_inr in Hok as (Hr & _ & _).
      by destruct (not_reserved_in _ t Hr). }
    destruct (validate_chain_inl _ _ He) as (pre & t' & post & -> & _ & Hc).
    apply check_tier_inl in Hc
      as [[Hres' ->]|[(_ & Hdup & _)|(_ & _ & (p & Hp & Hage) & _)]].
    + eauto.
    + exfalso. simpl in Hdup. by apply (repeated_path_not_NoDup pre post t').
    + exfalso. by apply (non_monotonic_pair pre post p t').
  - intros pre t post Hok Hres.
    apply validate_chain_first_failure; [done|].
    by apply check_tier_reserved.
Qed.

(** The amended claim at [{/tmp, 7d}]. *)
Lemma validate_chain_reserved_path_witness :
  ∃ e, validate_chain [tier_days "/tmp" 7] = inl e.
Proof.
  apply (proj1 (proj2 validate_chain_reserved_path) _ (tier_days "/tmp" 7)).
  - apply (bool_decide_unpack _). vm_compute. exact I.
  - apply (bool_decide_unpack _). vm_compute. exact I.
Defined.

(** ** Schema bootstrap *)

(** Runs a method of [Storage] on a state given by its components. *)
Ltac run_storage :=
  cbv [setup Storage_init create_database _create_new_db _run_migrations
       get_session _shutdown create_engine connect get_current_revision
       get_current_head create_all stamp_head upgrade_head fail_if
       try_except bind ret raise gets modify];
  simpl.

Ltac open_state st :=
  destruct st as [slf [rev tbl] hd [ce cae se ue] cs lg regs hs];
  simpl in *; subst.

Ltac finish_run :=
  repeat eexists; simpl; rewrite <- ?app_assoc; try done.

(** C7.  Once connected, [create_database] does one of three things,
    chosen by the revision recorded in the store.  With none recorded it
    creates the tables and then stamps the store at head (the stamp follows
    unless table creation raised), and never upgrades; when both calls
    succeed the store holds the tables at the head revision.  With a
    revision other than head it upgrades to head and neither creates nor
    stamps.  With the revision at head it makes no call beyond connecting
    and leaves the store as it is. *)
Theorem create_database_actions st :
  connect_error (faults st) = None →
  ∃ r st', create_database st = (r, st') ∧
    match revision (store st) with
    | None =>
        r = inr tt ∧
        calls st' =
          calls st ++ [CreateEngine DATABASE_URL; Connect; CreateAll] ++
            match create_all_error (faults st) with
            | None => [Stamp (head st)]
            | Some _ => []
            end ∧
        (create_all_error (faults st) = None →
         stamp_error (faults st) = None →
         store st' = mkStore (Some (head st)) true)
    | Some rev =>
        if decide (rev = head st) then
          r = inr tt ∧
          calls st' = calls st ++ [CreateEngine DATABASE_URL; Connect] ∧
          store st' = store st
        else
          calls st' =
            calls st ++
              [CreateEngine DATABASE_URL; Connect; Upgrade (head st)] ∧
          (upgrade_error (faults st) = None →
           r = inr tt ∧ store st' = mkStore (Some (head st)) true)
    end.
Proof.
  intros Hc. open_state st. run_storage. destruct rev as [rev|]; simpl.
  - destruct (decide (rev = hd)) as [->|Hne].
    + rewrite bool_decide_eq_false_2 by (intros ?; done). simpl. finish_run.
    + rewrite bool_decide_eq_true_2 by done. simpl.
      destruct ue; simpl; finish_run.
  - destruct cae; simpl; [|destruct se; simpl]; finish_run.
Qed.

(** A store with no revision, a working database: fresh create. *)
Lemma create_database_actions_witness :
  ∃ r st',
    create_database
      (blank_state (storage snapshots_in_tmp) (mkStore None false) "head"
                   no_faults) = (r, st') ∧
    r = inr tt ∧
    calls st' =
      [CreateEngine DATABASE_URL; Connect; CreateAll; Stamp "head"] ∧
    store st' = mkStore (Some "head") true.
Proof.
  destruct (create_database_actions
              (blank_state (storage snapshots_in_tmp) (mkStore None false)
                           "head" no_faults) eq_refl)
    as (r & st' & Hrun & Hr & Hcalls & Hstore).
  exists r, st'. repeat split; try done. by apply Hstore.
Defined.

(** C6, the input on which the claim fails: the store has no revision and
    table creation raises.  [setup] returns [True] all the same: the error
    is logged, the session factory is installed and both listeners are
    registered, over a store that still has no revision and no tables. *)
Lemma fresh_create_failure_is_swallowed :
  let st := blank_state (storage snapshots_in_tmp) (mkStore None false)
                        "head"
                        (mkFaults None (Some "disk full") None None) in
  ∃ st', setup snapshots_in_tmp st = (inr true, st') ∧
    store st' = mkStore None false ∧
    calls st' = [CreateEngine DATABASE_URL; Connect; CreateAll] ∧
    log st' = [LogDebug "Current database revision: None";
               LogDebug "Creating new database";
               LogError "Failed to create new database: disk full"] ∧
    _get_session (self st') = Some (mkSessionFactory (mkEngine DATABASE_URL) true) ∧
    registrations st' = [ListenCameraRegistered; OnSignalStopping].
Proof. eexists. repeat split. Qed.

(** C6, amended.  A failure to connect and a failure of the upgrade to head
    are fatal at startup: the exception leaves [setup] with its cause, no
    session factory is installed and no listener is registered.  A failure
    of fresh create (creating the tables, or stamping head after them) is
    caught in [_create_new_db] and logged as an error with its cause;
    [setup] then completes, with the session factory installed and the
    listeners registered, and the store still without a revision. *)
Theorem startup_failures config st :
  (∀ cause, connect_error (faults st) = Some cause →
     ∃ st', setup config st = (inl (DatabaseError cause), st') ∧
       _get_session (self st') = None ∧
       registrations st' = registrations st) ∧
  (∀ cause rev,
     connect_error (faults st) = None →
     revision (store st) = Some rev → rev ≠ head st →
     upgrade_error (faults st) = Some cause →
     ∃ st', setup config st = (inl (DatabaseError cause), st') ∧
       _get_session (self st') = None ∧
       registrations st' = registrations st) ∧
  (∀ cause,
     connect_error (faults st) = None →
     revision (store st) = None →
     create_all_error (faults st) = Some cause ∨
       (create_all_error (faults st) = None ∧
        stamp_error (faults st) = Some cause) →
     ∃ st', setup config st = (inr true, st') ∧
       LogError ("Failed to create new database: " +:+ cause) ∈ log st' ∧
       revision (store st') = None ∧
       _get_session (self st') =
         Some (mkSessionFactory (mkEngine DATABASE_URL) true) ∧
       registrations st' =
         registrations st ++ [ListenCameraRegistered; OnSignalStopping]).
Proof.
  repeat split.
  - intros cause Hc. open_state st. run_storage. finish_run.
  - intros cause rev' Hc Hrev Hne Hu. open_state st. run_storage.
    rewrite bool_decide_eq_true_2 by done. simpl. finish_run.
  - intros cause Hc Hrev [Hca|[Hca Hs]]; open_state st; run_storage;
      eexists; (split; [reflexivity|]); simpl; rewrite <- ?app_assoc;
      repeat split; rewrite !elem_of_app, !list_elem_of_singleton; auto.
Qed.

(** The amended claim at a store with no revision whose stamp raises. *)
Lemma startup_failures_witness :
  ∃ st',
    setup snapshots_in_tmp
      (blank_state (storage snapshots_in_tmp) (mkStore None false) "head"
                   (mkFaults None None (Some "read-only") None))
      = (inr true, st') ∧
    revision (store st') = None.
Proof.
  destruct (proj2 (proj2 (startup_failures snapshots_in_tmp
              (blank_state (storage snapshots_in_tmp) (mkStore None false)
                 "head" (mkFaults None None (Some "read-only") None))))
              "read-only" eq_refl eq_refl (or_intror (conj eq_refl eq_refl)))
    as (st' & Hrun & _ & Hrev & _).
  by exists st'.
Defined.

(** ** Sessions *)

Lemma create_database_keeps_get_session st e st' :
  create_database st = (inl e, st') →
  _get_session (self st') = _get_session (self st).
Proof.
  open_state st. run_storage. destruct ce; simpl.
  { intros [= <- <-]. done. }
  destruct rev as [rev|]; simpl.
  - case_bool_decide; simpl; [|done].
    destruct ue; simpl; [|done]. intros [= <- <-]. done.
  - destruct cae; simpl; [done|]. destruct se; simpl; done.
Qed.

Lemma create_database_installs st st' :
  create_database st = (inr tt, st') →
  engine (self st') = Some (mkEngine DATABASE_URL) ∧
  _get_session (self st') =
    Some (mkSessionFactory (mkEngine DATABASE_URL) true).
Proof.
  open_state st. run_storage. destruct ce; simpl; [done|].
  destruct rev as [rev|]; simpl.
  - case_bool_decide; simpl.
    + destruct ue; simpl; [done|]. by intros [= <-].
    + by intros [= <-].
  - destruct cae; simpl; [by intros [= <-]|].
    destruct se; simpl; by intros [= <-].
Qed.

(** C10.  [get_session] raises [RuntimeError] as long as no session factory
    is installed: on an instance whose [_get_session] is [None], as
    [__init__] leaves it before [create_database], and still so after a
    [create_database] that raised.  After a [create_database] that
    returned, the engine is the one created for [DATABASE_URL], and in every
    later state of the instance [get_session] returns a session of the
    factory bound to that engine, the state unchanged. *)
Theorem get_session_guard :
  (∀ st, _get_session (self st) = None →
     get_session st =
       (inl (RuntimeError "The database connection has not been established"),
        st)) ∧
  (∀ st e st', _get_session (self st) = None →
     create_database st = (inl e, st') →
     get_session st' =
       (inl (RuntimeError "The database connection has not been established"),
        st')) ∧
  (∀ st st', create_database st = (inr tt, st') →
     engine (self st') = Some (mkEngine DATABASE_URL) ∧
     ∀ later, self later = self st' →
       ∃ s, get_session later = (inr s, later) ∧
         session_bind s = mkEngine DATABASE_URL ∧
         Some s = new_session <$> _get_session (self st')).
Proof.
  assert (∀ st, _get_session (self st) = None →
            get_session st = (inl not_established, st)) as Hnone.
  { intros st H. unfold get_session, bind, gets. simpl. by rewrite H. }
  split; [exact Hnone|]. split.
  - intros st e st' H Hrun. apply Hnone.
    by rewrite (create_database_keeps_get_session _ _ _ Hrun).
  - intros st st' [Heng Hf]%create_database_installs.
    split; [exact Heng|]. intros later Hself.
    eexists. unfold get_session, bind, gets. simpl. rewrite Hself, Hf.
    simpl. done.
Qed.

(** A fresh instance, before [create_database] has run. *)
Lemma get_session_guard_witness :
  get_session
    (blank_state (storage snapshots_in_tmp) (mkStore None false) "head"
                 no_faults)
  = (inl (RuntimeError "The database connection has not been established"),
     blank_state (storage snapshots_in_tmp) (mkStore None false) "head"
                 no_faults).
Proof. apply (proj1 get_session_guard). reflexivity. Defined.

(** ** Dispatch on camera registration

    [TierHandler] is defined outside the files at hand.  Constructing one is
    recorded by the arguments it is given; what the constructor does with
    them is not part of the model. *)

Section Dispatch.

Implicit Types (st : State) (hs : list TierHandler) (tiers : list Tier).

(** [subcategories] reads the dictionary. *)
Lemma subcategories_lookup category :
  (category, subcategories category) ∈ TIER_CATEGORIES.
Proof. destruct category; apply (bool_decide_unpack _); reflexivity. Qed.

Lemma add_handlers_nil st : add_handlers [] st = st.
Proof. destruct st. unfold add_handlers. simpl. by rewrite app_nil_r. Qed.

Lemma add_handlers_app hs1 hs2 st :
  add_handlers hs2 (add_handlers hs1 st) = add_handlers (hs1 ++ hs2) st.
Proof. unfold add_handlers. simpl. by rewrite app_assoc. Qed.

(** A loop whose body only constructs handlers constructs the handlers of
    its iterations in order; [Inv] is what the body needs of the state. *)
Lemma for_each_add_handlers {A} (Inv : State → Prop) (l : list A)
    (body : A → M unit) (F : A → list TierHandler) st :
  (∀ st hs, Inv st → Inv (add_handlers hs st)) →
  (∀ x st, x ∈ l → Inv st → body x st = (inr tt, add_handlers (F x) st)) →
  Inv st →
  for_each l body st = (inr tt, add_handlers (l ≫= F) st).
Proof.
  intros Hinv. revert st. induction l as [|x l IH]; intros st Hbody Hst.
  - simpl. unfold ret. by rewrite add_handlers_nil.
  - simpl. unfold bind. rewrite (Hbody x st) by (done || left).
    rewrite IH.
    + by rewrite add_handlers_app.
    + intros y st' Hy. apply Hbody. by right.
    + by apply Hinv.
Qed.

Lemma enumerate_from_lookup {A} (l : list A) k i :
  enumerate_from k l !! i = (λ x, (k + i, x)) <$> l !! i.
Proof.
  revert k i. induction l as [|x l IH]; intros k [|i]; simpl; try done.
  - by rewrite Nat.add_0_r.
  - rewrite IH. by replace (S k + i) with (k + S i) by lia.
Qed.

Lemma enumerate_from_length {A} (l : list A) k :
  length (enumerate_from k l) = length l.
Proof. revert k. induction l; intros k; simpl; [done | by f_equal]. Qed.

Lemma elem_of_enumerate {A} (l : list A) i x :
  (i, x) ∈ enumerate l → l !! i = Some x.
Proof.
  intros [j Hj]%list_elem_of_lookup. unfold enumerate in Hj.
  rewrite enumerate_from_lookup in Hj.
  destruct (l !! j) eqn:E; simpl in Hj; [|done]. by injection Hj as <- <-.
Qed.

Lemma tier_body_run camera category tiers index tier st :
  tiers !! index = Some tier →
  (next_tier <-
     (if (Z.of_nat index =? Z.of_nat (length tiers) - 1)%Z
      then ret None
      else (t <- subscript tiers (index + 1) ;; ret (Some t))) ;;
   for_each (subcategories category) (λ subcategory,
     modify (add_handlers
       [mkTierHandler camera index category subcategory tier next_tier])))
    st
  = (inr tt, add_handlers (tier_handlers camera category tiers (index, tier))
                          st).
Proof.
  intros Hlook. apply lookup_lt_Some in Hlook as Hlt.
  assert (∀ next, for_each (subcategories category) (λ subcategory,
            modify (add_handlers
              [mkTierHandler camera index category subcategory tier next]))
            st
          = (inr tt, add_handlers
               (subcategories category ≫= λ subcategory,
                  [mkTierHandler camera index category subcategory tier next])
               st)) as Hinner.
  { intros next. apply (for_each_add_handlers (λ _, True)); done. }
  unfold bind at 1. destruct (Z.eqb_spec (Z.of_nat index)
                                (Z.of_nat (length tiers) - 1)) as [Heq|Hne].
  - unfold ret. rewrite Hinner. simpl.
    rewrite (lookup_ge_None_2 tiers (S index)) by lia. done.
  - unfold subscript, bind. rewrite Nat.add_1_r.
    destruct (tiers !! S index) as [t|] eqn:Hnext.
    + unfold ret. rewrite Hinner. simpl. by rewrite Hnext.
    + apply lookup_ge_None in Hnext. lia.
Qed.

Lemma camera_registered_run camera st :
  _camera_registered camera st =
    (inr tt, add_handlers (constructed camera (_config (self st))) st).
Proof.
  unfold _camera_registered, constructed.
  apply (for_each_add_handlers
           (λ st', _config (self st') = _config (self st))); [done| |done].
  intros category st' _ Hcfg. unfold bind at 1, gets. rewrite Hcfg.
  apply (for_each_add_handlers (λ _, True)
           _ _ (tier_handlers camera category
                  (category_tiers (_config (self st)) category)));
    [done| |done].
  intros [index tier] st'' Hin _.
  apply tier_body_run. by apply elem_of_enumerate.
Qed.

Lemma handlers_of_app c sub hs1 hs2 :
  handlers_of c sub (hs1 ++ hs2) = handlers_of c sub hs1 ++ handlers_of c sub hs2.
Proof. apply filter_app. Qed.

Lemma handlers_of_tier camera c c' sub tiers i t :
  handlers_of c sub (tier_handlers camera c' tiers (i, t)) =
    if decide (c' = c ∧ sub ∈ subcategories c)
    then [mkTierHandler camera i c sub t (tiers !! S i)]
    else [].
Proof. destruct c, c', sub; reflexivity. Qed.

Lemma handlers_of_enumerate camera c c' sub tiers k l :
  handlers_of c sub (enumerate_from k l ≫= tier_handlers camera c' tiers) =
    if decide (c' = c ∧ sub ∈ subcategories c)
    then (λ '(i, t), mkTierHandler camera i c sub t (tiers !! S i))
           <$> enumerate_from k l
    else [].
Proof.
  revert k. induction l as [|x l IH]; intros k.
  - simpl. by case_decide.
  - change (enumerate_from k (x :: l))
      with ((k, x) :: enumerate_from (S k) l).
    rewrite bind_cons, fmap_cons.
    rewrite handlers_of_app, IH, handlers_of_tier. by case_decide.
Qed.

(** Among the handlers constructed, those of one pair are the handlers of
    the chain of its category, tier by tier. *)
Lemma handlers_of_constructed camera config category sub :
  sub ∈ subcategories category →
  handlers_of category sub (constructed camera config) =
    chain_handlers camera category sub (category_tiers config category).
Proof.
  intros Hsub. unfold constructed, chain_handlers, enumerate. simpl.
  rewrite !handlers_of_app, !handlers_of_enumerate.
  destruct category; repeat case_decide; simpl; try done;
    try rewrite app_nil_r; try tauto; destruct_and?; done.
Qed.

Lemma chain_handlers_lookup camera category sub tiers i :
  chain_handlers camera category sub tiers !! i =
    (λ t, mkTierHandler camera i category sub t (tiers !! S i))
      <$> tiers !! i.
Proof.
  unfold chain_handlers, enumerate.
  rewrite list_lookup_fmap, enumerate_from_lookup.
  by destruct (tiers !! i).
Qed.

Lemma chain_handlers_length camera category sub tiers :
  length (chain_handlers camera category sub tiers) = length tiers.
Proof.
  unfold chain_handlers, enumerate.
  by rewrite length_fmap, enumerate_from_length.
Qed.

End Dispatch.

(** C8.  For every pair of a category and one of its subcategories that has
    no override, the effective chain is the chain of the category, and the
    handlers [_camera_registered] adds for the pair are as many as its
    tiers: the handler at index [i] has tier [i] as its tier, with tier
    [i + 1] as next tier when there is one and no next tier at the last
    index.  For a pair with an override this fails: in
    [face_override_config] the effective chain of (snapshots,
    face_recognition) has two tiers, and the method constructs one handler
    for the pair, on the single tier of the snapshots default. *)
Theorem camera_registered_movers_per_pair :
  (∀ camera st, ∃ st' hs,
     _camera_registered camera st = (inr tt, st') ∧
     handlers st' = handlers st ++ hs ∧
     ∀ category sub,
       (category = recordings ∧ (sub = segments ∨ sub = recordings_files)) ∨
       (category = snapshots ∧
        (sub = face_recognition ∨ sub = object_detection) ∧
        subcategory_override (_config (self st)) sub = None) →
       let tiers :=
         match category with
         | recordings => recordings_tiers (cfg_recordings (_config (self st)))
         | snapshots => snapshots_tiers (cfg_snapshots (_config (self st)))
         end in
       let movers := handlers_of category sub hs in
       effective_chain_spec (_config (self st)) category sub = tiers ∧
       length movers = length tiers ∧
       (∀ i t t', tiers !! i = Some t → tiers !! S i = Some t' →
          movers !! i =
            Some (mkTierHandler camera i category sub t (Some t'))) ∧
       (∀ i t, tiers !! i = Some t → S i = length tiers →
          movers !! i = Some (mkTierHandler camera i category sub t None))) ∧
  (let st := blank_state face_override_config (mkStore (Some "head") true)
                         "head" no_faults in
   effective_chain_spec face_override_config snapshots face_recognition
     = [tier_days "/faces" 1; tier_days "/archive" 30] ∧
   ∃ st', _camera_registered "front_door" st = (inr tt, st') ∧
     handlers_of snapshots face_recognition (handlers st') =
       [mkTierHandler "front_door" 0 snapshots face_recognition
                      (tier_days "/snapshots" 7) None]).
Proof.
  split.
  - intros camera st.
    exists (add_handlers (constructed camera (_config (self st))) st),
           (constructed camera (_config (self st))).
    split; [apply camera_registered_run|]. split; [done|].
    intros category sub Hpair tiers movers.
    assert (sub ∈ subcategories category ∧
            subcategory_override (_config (self st)) sub = None ∧
            category_tiers (_config (self st)) category = tiers)
      as (Hsub & Hover & Htiers).
    { destruct Hpair as [[-> [->| ->]]|(-> & [->| ->] & Hover)];
        (split; [apply (bool_decide_unpack _); reflexivity|]); done. }
    subst movers. rewrite handlers_of_constructed, Htiers by done.
    split; [by unfold effective_chain_spec; rewrite Hover, Htiers|].
    split; [apply chain_handlers_length|]. split.
    + intros i t t' Ht Ht'. by rewrite chain_handlers_lookup, Ht, Ht'.
    + intros i t Ht Hlast. rewrite chain_handlers_lookup, Ht. simpl.
      by rewrite (lookup_ge_None_2 tiers (S i)) by lia.
  - intros st. split; [reflexivity|].
    eexists. split; reflexivity.
Qed.

(** The segments of [face_override_config]: two recordings tiers, and two
    handlers added, from [/ssd] to [/hdd] and on [/hdd] with no next
    tier. *)
Lemma camera_registered_movers_per_pair_witness :
  let st := blank_state face_override_config (mkStore (Some "head") true)
                        "head" no_faults in
  ∃ st' hs,
    _camera_registered "front_door" st = (inr tt, st') ∧
    handlers st' = hs ∧
    handlers_of recordings segments hs =
      [mkTierHandler "front_door" 0 recordings segments
                     (tier_days "/ssd" 1) (Some (tier_days "/hdd" 7));
       mkTierHandler "front_door" 1 recordings segments
                     (tier_days "/hdd" 7) None].
Proof.
  intros st.
  destruct (proj1 camera_registered_movers_per_pair "front_door" st)
    as (st' & hs & Hrun & Hhs & Hall).
  exists st', hs. split; [exact Hrun|]. split; [exact Hhs|].
  destruct (Hall recordings segments) as (_ & Hlen & Hnext & Hlast).
  { left. split; [reflexivity|]. left. reflexivity. }
  pose proof (Hnext 0 _ _ eq_refl eq_refl) as H0.
  pose proof (Hlast 1 _ eq_refl eq_refl) as H1.
  simpl in Hlen.
  destruct (handlers_of recordings segments hs) as [|h0 [|h1 [|h2 l]]];
    simpl in *; try discriminate.
  by injection H0 as ->; injection H1 as ->.
Defined.

(** C9.  [_camera_registered] never reads the subcategory overrides: the
    handlers it constructs are the same whatever the overrides hold.  For
    [face_override_config] the specification resolves the chain of
    (snapshots, face_recognition) to the two override tiers, while the
    handlers constructed for that pair are the single one of the snapshots
    default chain. *)
Theorem camera_registered_ignores_override :
  (∀ camera r tiers o1 o2,
     constructed camera (mkStorageConfig r (mkSnapshots tiers o1 o2)) =
     constructed camera (mkStorageConfig r (mkSnapshots tiers None None))) ∧
  let st := blank_state face_override_config (mkStore (Some "head") true)
                        "head" no_faults in
  effective_chain_spec face_override_config snapshots face_recognition
    = [tier_days "/faces" 1; tier_days "/archive" 30] ∧
  ∃ st', _camera_registered "front_door" st = (inr tt, st') ∧
    handlers_of snapshots face_recognition (handlers st') =
      [mkTierHandler "front_door" 0 snapshots face_recognition
                     (tier_days "/snapshots" 7) None] ∧
    handlers_of snapshots face_recognition (handlers st') ≠
      chain_handlers "front_door" snapshots face_recognition
        (effective_chain_spec face_override_config snapshots
                              face_recognition).
Proof.
  split; [done|]. intros st. split; [reflexivity|].
  eexists. split; [reflexivity|]. split; [reflexivity|].
  vm_compute. discriminate.
Qed.

(** * Further properties *)

(** ** Validation *)

(** X1.  [validate_tiers] accepts a configuration exactly when no path of
    its recordings chain is reserved, the paths of that chain are pairwise
    distinct and its ages are increasing over every adjacent pair whose
    second tier has a positive [max_age]; what it returns is then the
    configuration it was given. *)
Theorem validate_tiers_accepts config config' :
  validate_tiers config = inr config' ↔
    config' = config ∧
    let tiers := recordings_tiers (cfg_recordings (storage config)) in
    Forall (λ t, ¬ reserved (path t)) tiers ∧
    NoDup (path <$> tiers) ∧
    adjacent_monotonic tiers.
Proof.
  unfold validate_tiers.
  destruct (validate_chain _) as [e|[]] eqn:Hv.
  - split; [done|]. intros (_ & Hok%validate_chain_inr). congruence.
  - apply validate_chain_inr in Hv. split.
    + by intros [= <-].
    + by intros [-> _].
Qed.

(** The default configuration of the recordings passes. *)
Lemma validate_tiers_accepts_witness :
  let config := mkConfig (mkStorageConfig
    (mkRecordings DEFAULT_RECORDINGS_TIERS DEFAULT_CREATE_EVENT_CLIP
                  DEFAULT_TYPE)
    (mkSnapshots DEFAULT_SNAPSHOTS_TIERS None None)) in
  config = config ∧
  Forall (λ t, ¬ reserved (path t)) DEFAULT_RECORDINGS_TIERS ∧
  NoDup (path <$> DEFAULT_RECORDINGS_TIERS) ∧
  adjacent_monotonic DEFAULT_RECORDINGS_TIERS.
Proof.
  intros config.
  apply (proj1 (validate_tiers_accepts config config)).
  vm_compute. reflexivity.
Defined.

(** X2.  The first tier of a chain is never compared with anything: the
    empty chain passes, and a chain of one tier passes exactly when its
    path is not reserved, whatever its [max_age]. *)
Theorem validate_chain_single :
  validate_chain [] = inr tt ∧
  ∀ t, validate_chain [t] = inr tt ↔ ¬ reserved (path t).
Proof.
  split; [done|]. intros t. rewrite validate_chain_inr. split.
  - intros (Hr & _ & _). by inversion Hr.
  - intros Hr. repeat split.
    + by repeat constructor.
    + simpl. apply NoDup_singleton.
    + intros [|i] a b; simpl; [done|]. by rewrite lookup_nil.
Qed.

(** A single tier with a negative [max_age] passes. *)
Lemma validate_chain_single_witness :
  validate_chain [tier_days "/recordings" (-3)] = inr tt.
Proof.
  apply (proj2 validate_chain_single).
  apply (bool_decide_eq_false_1 _). reflexivity.
Defined.

(** X3.  Every error is raised for a tier of the chain, the first one that
    fails a check, and reports a fact about it: a reserved path error names
    a reserved path, a duplicate path error names a path that one of the
    tiers before already has, and an age error names a tier whose [max_age]
    is positive and not above that of the tier just before it. *)
Theorem validate_chain_error_sound tiers e :
  validate_chain tiers = inl e →
  ∃ pre t post,
    tiers = pre ++ t :: post ∧ validate_chain pre = inr tt ∧
    match e with
    | ReservedPathError p => p = path t ∧ reserved p
    | DuplicatePathError p =>
        p = path t ∧ ¬ reserved p ∧ p ∈ path <$> pre
    | NonMonotonicAgeError p =>
        p = path t ∧ ¬ reserved p ∧ (p ∉ path <$> pre) ∧
        ∃ a, last pre = Some a ∧ (0 < age t ≤ age a)%Z
    end.
Proof.
  intros (pre & t & post & -> & Hok & Hc)%validate_chain_inl.
  exists pre, t, post. split; [done|]. split; [done|].
  apply check_tier_inl in Hc
    as [[Hres ->]|[(Hres & Hin & ->)|(Hres & Hnin & (a & Ha & Hage) & ->)]];
    simpl in *; eauto 10.
Qed.

(** The age error of [{/a, 7d}, {/b, 3d}] is raised for [/b]. *)
Lemma validate_chain_error_sound_witness :
  ∃ pre t post,
    [tier_days "/a" 7; tier_days "/b" 3] = pre ++ t :: post ∧
    validate_chain pre = inr tt ∧
    "/b" = path t ∧ ¬ reserved "/b" ∧ ("/b" ∉ path <$> pre) ∧
    ∃ a, last pre = Some a ∧ (0 < age t ≤ age a)%Z.
Proof.
  apply (validate_chain_error_sound
           [tier_days "/a" 7; tier_days "/b" 3] (NonMonotonicAgeError "/b")).
  vm_compute. reflexivity.
Defined.

Lemma adjacent_monotonic_infix (pre mid post : list Tier) :
  adjacent_monotonic (pre ++ mid ++ post) → adjacent_monotonic mid.
Proof.
  intros H i a b Ha Hb. apply (H (length pre + i)).
  - rewrite lookup_app_r by lia.
    replace (length pre + i - length pre) with i by lia.
    by apply lookup_app_l_Some.
  - rewrite lookup_app_r by lia.
    replace (S (length pre + i) - length pre) with (S i) by lia.
    by apply lookup_app_l_Some.
Qed.

(** X4.  Validation is kept by every run of consecutive tiers: when a chain
    passes, so does the chain left after dropping tiers from its front and
    from its end. *)
Theorem validate_chain_infix pre mid post :
  validate_chain (pre ++ mid ++ post) = inr tt →
  validate_chain mid = inr tt.
Proof.
  rewrite !validate_chain_inr. intros (Hr & Hn & Hm). repeat split.
  - apply Forall_app in Hr as [_ Hr]. by apply Forall_app in Hr as [Hr _].
  - rewrite !fmap_app in Hn.
    apply NoDup_app in Hn as (_ & _ & Hn). by apply NoDup_app in Hn as [Hn _].
  - by apply (adjacent_monotonic_infix pre mid post).
Qed.

(** The middle tier of a chain of three that passes. *)
Lemma validate_chain_infix_witness :
  validate_chain [tier_days "/b" 3] = inr tt.
Proof.
  apply (validate_chain_infix [tier_days "/a" 1] [tier_days "/b" 3]
                              [tier_days "/c" 7]).
  vm_compute. reflexivity.
Defined.

(** X5.  In a chain that passes and in which every tier after the first has
    a positive [max_age], the ages increase along the whole chain: a later
    tier always has a greater [max_age] than an earlier one. *)
Theorem validated_ages_increase tiers :
  validate_chain tiers = inr tt →
  (∀ i t, tiers !! S i = Some t → (0 < age t)%Z) →
  ∀ i j a b, i < j → tiers !! i = Some a → tiers !! j = Some b →
    (age a < age b)%Z.
Proof.
  intros (_ & _ & Hm)%validate_chain_inr Hpos i j.
  induction j as [|j IH]; intros a b Hij Ha Hb; [lia|].
  destruct (tiers !! j) as [c|] eqn:Hc.
  2: { apply lookup_ge_None in Hc. apply lookup_lt_Some in Hb. lia. }
  assert (age c < age b)%Z as Hcb by (apply (Hm j); eauto).
  destruct (decide (i = j)) as [->|Hne].
  - congruence.
  - assert (age a < age c)%Z by (apply IH; [lia|done..]). lia.
Qed.

(** The first and the last tier of [{/a, 1d}, {/b, 3d}, {/c, 7d}]. *)
Lemma validated_ages_increase_witness :
  (age (tier_days "/a" 1) < age (tier_days "/c" 7))%Z.
Proof.
  apply (validated_ages_increase
           [tier_days "/a" 1; tier_days "/b" 3; tier_days "/c" 7]
           eq_refl) with (i := 0) (j := 2).
  - intros [|[|[|i]]] t; simpl; intros [= <-]; reflexivity.
  - lia.
  - reflexivity.
  - reflexivity.
Defined.

Lemma check_tier_same st1 st2 t1 t2 :
  paths st1 = paths st2 →
  option_Forall2 same_path_and_age (previous_tier st1) (previous_tier st2) →
  same_path_and_age t1 t2 →
  match check_tier st1 t1, check_tier st2 t2 with
  | inl e1, inl e2 => e1 = e2
  | inr s1, inr s2 =>
      paths s1 = paths s2 ∧
      option_Forall2 same_path_and_age (previous_tier s1) (previous_tier s2)
  | _, _ => False
  end.
Proof.
  intros Hp Hprev [Hpath Hage]. unfold check_tier, age in *.
  rewrite <- Hpath, <- Hp.
  case_bool_decide; [done|]. case_bool_decide; [done|].
  destruct Hprev as [p1 p2 [_ Hpage]|]; simpl.
  - unfold age in Hpage. rewrite <- Hage, <- Hpage.
    destruct (_ && _); simpl; [done|].
    split; [done|]. by constructor.
  - split; [done|]. by constructor.
Qed.

Lemma validate_loop_same st1 st2 tiers1 tiers2 :
  paths st1 = paths st2 →
  option_Forall2 same_path_and_age (previous_tier st1) (previous_tier st2) →
  Forall2 same_path_and_age tiers1 tiers2 →
  match validate_loop st1 tiers1, validate_loop st2 tiers2 with
  | inl e1, inl e2 => e1 = e2
  | inr _, inr _ => True
  | _, _ => False
  end.
Proof.
  intros Hp Hprev Hall. revert st1 st2 Hp Hprev.
  induction Hall as [|t1 t2 l1 l2 Ht _ IH]; intros st1 st2 Hp Hprev; simpl.
  - done.
  - pose proof (check_tier_same st1 st2 t1 t2 Hp Hprev Ht) as Hc.
    destruct (check_tier st1 t1), (check_tier st2 t2); try done.
    destruct Hc. by apply IH.
Qed.

(** X6.  Validation reads nothing of a tier but its path and its [max_age]
    in seconds: two chains that agree on these, tier by tier, have the same
    outcome, the same error included.  The sizes, [min_age], [poll] and
    [move_on_shutdown] play no part, nor does the way a [max_age] is split
    over days, hours and minutes. *)
Theorem validate_chain_same tiers1 tiers2 :
  Forall2 same_path_and_age tiers1 tiers2 →
  validate_chain tiers1 = validate_chain tiers2.
Proof.
  intros Hall. unfold validate_chain.
  pose proof (validate_loop_same initial_locals initial_locals tiers1 tiers2
                eq_refl (None_Forall2 _) Hall) as H.
  destruct (validate_loop _ tiers1), (validate_loop _ tiers2);
    try done. by subst.
Qed.

(** One day against twenty-four hours, polling, with a [min_age] above the
    [max_age]. *)
Lemma validate_chain_same_witness :
  validate_chain [tier_days "/a" 1] =
  validate_chain
    [mkTier "/a" true true unset_size (mkSize (Some 5%Z) None)
            (mkAge (Some 9%Z) None None) (mkAge None (Some 24%Z) None)].
Proof.
  apply validate_chain_same.
  repeat constructor.
Defined.

Lemma list_ascii_of_string_app (a b : string) :
  String.list_ascii_of_string (a +:+ b) =
  String.list_ascii_of_string a ++ String.list_ascii_of_string b.
Proof. induction a as [|c a IH]; simpl; [done | by rewrite IH]. Qed.

Lemma list_ascii_of_string_inj (a b : string) :
  String.list_ascii_of_string a = String.list_ascii_of_string b → a = b.
Proof.
  intros H. apply (f_equal String.string_of_list_ascii) in H.
  by rewrite !String.string_of_list_ascii_of_string in H.
Qed.

(** X7.  The text of an error determines the error: the three kinds never
    share a message, and the message of a kind gives back the path it was
    raised for. *)
Theorem message_inj e1 e2 : message e1 = message e2 → e1 = e2.
Proof.
  intros H. apply (f_equal String.list_ascii_of_string) in H.
  destruct e1 as [p|p|p], e2 as [q|q|q]; unfold message in H;
    rewrite !list_ascii_of_string_app in H;
    apply app_inv_head in H;
    try (apply app_inv_tail in H; apply list_ascii_of_string_inj in H;
         by subst);
    apply (f_equal last) in H; rewrite !last_app in H; simpl in H;
    discriminate H.
Qed.

(** Two messages for the same kind and path. *)
Lemma message_inj_witness :
  DuplicatePathError "/a" = DuplicatePathError ("/" +:+ "a").
Proof. apply message_inj. reflexivity. Defined.

(** ** Database set-up *)

(** X9.  [_create_new_db] raises only on an instance without engine, and
    then before anything reaches the database.  With an engine it always
    returns: when creating the tables and stamping both succeed the store
    holds the tables at head, and otherwise the revision of the store is
    the one it had and the failure is in the log. *)
Theorem create_new_db_outcomes st :
  (engine (self st) = None →
     ∃ st', _create_new_db st = (inl not_established, st') ∧
       calls st' = calls st ∧ store st' = store st) ∧
  (is_Some (engine (self st)) →
     ∃ st', _create_new_db st = (inr tt, st') ∧
       match create_all_error (faults st), stamp_error (faults st) with
       | None, None => store st' = mkStore (Some (head st)) true
       | Some cause, _ | None, Some cause =>
           revision (store st') = revision (store st) ∧
           LogError ("Failed to create new database: " +:+ cause) ∈ log st'
       end).
Proof.
  split.
  - intros He. destruct st as [[c r s eng g] [rev tbl] hd [ce cae se ue]
                                 cs lg regs hs].
    simpl in He. subst eng. run_storage. eauto.
  - intros [eng He]. destruct st as [[c r s eng' g] [rev tbl] hd [ce cae se ue]
                                       cs lg regs hs].
    simpl in He. subst eng'. run_storage.
    destruct cae; simpl; [|destruct se; simpl];
      eexists; (split; [reflexivity|]); simpl; try done;
      (split; [done|]); rewrite !elem_of_app, !list_elem_of_singleton; auto.
Qed.

(** An instance on which nothing was set up. *)
Lemma create_new_db_outcomes_witness :
  ∃ st',
    _create_new_db
      (blank_state (storage snapshots_in_tmp) (mkStore None false) "head"
                   no_faults) = (inl not_established, st') ∧
    calls st' = [] ∧ store st' = mkStore None false.
Proof.
  apply (proj1 (create_new_db_outcomes
           (blank_state (storage snapshots_in_tmp) (mkStore None false)
                        "head" no_faults))).
  reflexivity.
Defined.

(** X10.  With a database layer that does not fail, [create_database]
    leaves the store at head, and running it again changes nothing in the
    store: the second run creates an engine, connects, and makes no other
    call. *)
Theorem create_database_twice st :
  faults st = no_faults →
  ∃ st1 st2,
    create_database st = (inr tt, st1) ∧
    revision (store st1) = Some (head st) ∧
    create_database st1 = (inr tt, st2) ∧
    store st2 = store st1 ∧
    calls st2 = calls st1 ++ [CreateEngine DATABASE_URL; Connect].
Proof.
  intros Hf. destruct st as [slf [rev tbl] hd f cs lg regs hs].
  simpl in Hf. subst f. run_storage.
  destruct rev as [rev|]; simpl.
  - destruct (decide (rev = hd)) as [->|Hne].
    + rewrite bool_decide_eq_false_2 by (intros ?; done). simpl.
      eexists _, _. split; [reflexivity|]. simpl. split; [done|].
      rewrite bool_decide_eq_false_2 by (intros ?; done). simpl.
      split; [reflexivity|]. simpl. by rewrite <- !app_assoc.
    + rewrite bool_decide_eq_true_2 by done. simpl.
      eexists _, _. split; [reflexivity|]. simpl. split; [done|].
      rewrite bool_decide_eq_false_2 by (intros ?; done). simpl.
      split; [reflexivity|]. simpl. by rewrite <- !app_assoc.
  - eexists _, _. split; [reflexivity|]. simpl. split; [done|].
    rewrite bool_decide_eq_false_2 by (intros ?; done). simpl.
    split; [reflexivity|]. simpl. by rewrite <- !app_assoc.
Qed.

(** A store without revision, set up twice. *)
Lemma create_database_twice_witness :
  ∃ st1 st2,
    create_database
      (blank_state (storage snapshots_in_tmp) (mkStore None false) "head"
                   no_faults) = (inr tt, st1) ∧
    revision (store st1) = Some "head" ∧
    create_database st1 = (inr tt, st2) ∧
    store st2 = store st1 ∧
    calls st2 = calls st1 ++ [CreateEngine DATABASE_URL; Connect].
Proof.
  apply (create_database_twice
           (blank_state (storage snapshots_in_tmp) (mkStore None false)
                        "head" no_faults)).
  reflexivity.
Defined.

(** X11.  [setup] registers the two listeners exactly when it returns, and
    it returns [True] only: after a [setup] that returned, the listener for
    registered cameras and the one for the stopping signal have been added,
    in this order, and [get_session] hands out a session; after a [setup]
    that raised, no listener has been added and [get_session] raises.  In
    both cases the instance holds the storage configuration and its two
    chains. *)
Theorem setup_outcomes config st :
  ∃ r st', setup config st = (r, st') ∧
    _config (self st') = storage config ∧
    _recordings_tiers (self st') =
      recordings_tiers (cfg_recordings (storage config)) ∧
    _snapshots_tiers (self st') =
      snapshots_tiers (cfg_snapshots (storage config)) ∧
    match r with
    | inr b =>
        b = true ∧
        registrations st' =
          registrations st ++ [ListenCameraRegistered; OnSignalStopping] ∧
        get_session st' =
          (inr (mkSession (mkEngine DATABASE_URL) true), st')
    | inl e =>
        registrations st' = registrations st ∧
        get_session st' = (inl not_established, st')
    end.
Proof.
  open_state st. run_storage. destruct ce; simpl.
  { repeat eexists. }
  destruct rev as [rev|]; simpl.
  - case_bool_decide; simpl.
    + destruct ue; simpl; repeat eexists; simpl; by rewrite <- ?app_assoc.
    + repeat eexists; simpl; by rewrite <- ?app_assoc.
  - destruct cae; simpl; [|destruct se; simpl];
      repeat eexists; simpl; by rewrite <- ?app_assoc.
Qed.

(** X12.  After a [create_database] that returned, [_shutdown] calls
    [dispose] on the engine and resets nothing: the attributes of the
    instance are as before, so [get_session] still hands out a session of
    the factory bound to that engine, and a second [_shutdown] calls
    [dispose] again. *)
Theorem shutdown_keeps_session_factory st st1 :
  create_database st = (inr tt, st1) →
  let st2 := (_shutdown st1).2 in
  let st3 := (_shutdown st2).2 in
  calls st2 = calls st1 ++ [Dispose] ∧
  self st2 = self st1 ∧
  get_session st2 = (inr (mkSession (mkEngine DATABASE_URL) true), st2) ∧
  calls st3 = calls st1 ++ [Dispose; Dispose] ∧
  self st3 = self st1.
Proof.
  intros [He Hf]%create_database_installs.
  unfold _shutdown, get_session, bind, gets, modify. simpl.
  rewrite He. simpl. rewrite He, Hf. simpl.
  rewrite <- app_assoc. done.
Qed.

(** Set-up of a store at head, then two shutdowns. *)
Lemma shutdown_keeps_session_factory_witness :
  let st := blank_state (storage snapshots_in_tmp)
              (mkStore (Some "head") true) "head" no_faults in
  let st1 := (create_database st).2 in
  let st2 := (_shutdown st1).2 in
  let st3 := (_shutdown st2).2 in
  calls st2 = [CreateEngine DATABASE_URL; Connect; Dispose] ∧
  self st2 = self st1 ∧
  get_session st2 = (inr (mkSession (mkEngine DATABASE_URL) true), st2) ∧
  calls st3 = [CreateEngine DATABASE_URL; Connect; Dispose; Dispose] ∧
  self st3 = self st1.
Proof.
  intros st st1.
  apply (shutdown_keeps_session_factory st st1).
  reflexivity.
Defined.

(** ** Handlers and paths *)

Lemma elem_of_enumerate_2 {A} (l : list A) i x :
  l !! i = Some x → (i, x) ∈ enumerate l.
Proof.
  intros H. apply list_elem_of_lookup. exists i. unfold enumerate.
  by rewrite enumerate_from_lookup, H.
Qed.

Lemma elem_of_constructed camera config h :
  h ∈ constructed camera config ↔
  ∃ category i t sub,
    category_tiers config category !! i = Some t ∧
    sub ∈ subcategories category ∧
    h = mkTierHandler camera i category sub t
          (category_tiers config category !! S i).
Proof.
  unfold constructed. rewrite list_elem_of_bind. split.
  - intros (category & Hh & _).
    apply list_elem_of_bind in Hh as ([i t] & Hh & Hit).
    apply list_elem_of_bind in Hh as (sub & Hh & Hsub).
    apply list_elem_of_singleton in Hh.
    exists category, i, t, sub. split; [by apply elem_of_enumerate|done].
  - intros (category & i & t & sub & Hit & Hsub & ->).
    exists category. split.
    + apply list_elem_of_bind. exists (i, t).
      split; [|by apply elem_of_enumerate_2].
      apply list_elem_of_bind. exists sub. split; [|done].
      by apply list_elem_of_singleton.
    + destruct category; apply (bool_decide_unpack _); reflexivity.
Qed.

Lemma length_tier_handlers camera category tiers k (l : list Tier) :
  length (enumerate_from k l ≫= tier_handlers camera category tiers)
  = 2 * length l.
Proof.
  revert k. induction l as [|x l IH]; intros k; [done|].
  change (enumerate_from k (x :: l)) with ((k, x) :: enumerate_from (S k) l).
  rewrite bind_cons, length_app, IH. destruct category; simpl; lia.
Qed.

(** X13.  Every handler [_camera_registered] constructs is for the camera
    registered and for a subcategory of its own category; its tier is the
    tier of the category chain at its index and its next tier is the one at
    the following index, none at the end.  No handler pairs a category with
    a subcategory of the other one. *)
Theorem camera_registered_handlers_sound camera st :
  ∃ hs, _camera_registered camera st = (inr tt, add_handlers hs st) ∧
    ∀ h, h ∈ hs →
      let tiers := category_tiers (_config (self st)) (th_category h) in
      th_camera h = camera ∧
      th_subcategory h ∈ subcategories (th_category h) ∧
      tiers !! th_index h = Some (th_tier h) ∧
      th_next_tier h = tiers !! S (th_index h).
Proof.
  exists (constructed camera (_config (self st))).
  split; [apply camera_registered_run|].
  intros h (category & i & t & sub & Hit & Hsub & ->)%elem_of_constructed.
  simpl. done.
Qed.

(** The handlers of [face_override_config] are all for the camera. *)
Lemma camera_registered_handlers_sound_witness :
  let st := blank_state face_override_config (mkStore (Some "head") true)
                        "head" no_faults in
  ∃ hs, _camera_registered "front_door" st = (inr tt, add_handlers hs st) ∧
    Forall (λ h, th_camera h = "front_door") hs.
Proof.
  intros st.
  destruct (camera_registered_handlers_sound "front_door" st)
    as (hs & Hrun & Hall).
  exists hs. split; [exact Hrun|].
  apply Forall_forall. intros h Hh. by destruct (Hall h Hh).
Defined.

(** X14.  [_camera_registered] constructs two handlers for every tier of
    the recordings chain and two for every tier of the snapshots chain,
    after the handlers constructed before, and none for an empty chain.
    The subscript [tiers[index + 1]] is only evaluated below the last index
    and so never out of range. *)
Theorem camera_registered_count camera st :
  ∃ st' hs,
    _camera_registered camera st = (inr tt, st') ∧
    handlers st' = handlers st ++ hs ∧
    length hs =
      2 * (length (recordings_tiers (cfg_recordings (_config (self st))))
           + length (snapshots_tiers (cfg_snapshots (_config (self st))))).
Proof.
  eexists _, (constructed camera (_config (self st))).
  split; [apply camera_registered_run|]. split; [done|].
  unfold constructed, enumerate. simpl.
  rewrite !length_app, !length_tier_handlers. simpl. lia.
Qed.

(** X15.  Nothing in [_camera_registered] remembers a camera: registering
    one camera and then another constructs the handlers of the first
    followed by those of the second, and registering the same camera twice
    constructs each of its handlers twice. *)
Theorem camera_registered_twice camera1 camera2 st :
  (_camera_registered camera1 ;;; _camera_registered camera2) st =
    (inr tt,
     add_handlers (constructed camera1 (_config (self st)) ++
                   constructed camera2 (_config (self st))) st).
Proof.
  unfold bind. rewrite camera_registered_run, camera_registered_run.
  simpl. by rewrite add_handlers_app.
Qed.

Lemma validate_tiers_recordings config :
  validate_tiers config = inr config →
  validate_chain (recordings_tiers (cfg_recordings (storage config)))
    = inr tt.
Proof.
  unfold validate_tiers. by destruct (validate_chain _) as [e|[]].
Qed.

(** X16.  On an instance that holds a configuration [validate_tiers]
    accepted, every handler constructed for the recordings moves files
    between two different paths: its tier has a path that is not reserved,
    and when it has a next tier, the two paths differ and a positive
    [max_age] of the next tier is above the [max_age] of its own. *)
Theorem validated_recordings_handlers config camera st :
  validate_tiers config = inr config →
  _config (self st) = storage config →
  ∃ hs, _camera_registered camera st = (inr tt, add_handlers hs st) ∧
    ∀ h, h ∈ hs → th_category h = recordings →
      ¬ reserved (path (th_tier h)) ∧
      ∀ next, th_next_tier h = Some next →
        path (th_tier h) ≠ path next ∧
        ((0 < age next)%Z → (age (th_tier h) < age next)%Z).
Proof.
  intros (Hr & Hn & Hm)%validate_tiers_recordings%validate_chain_inr Hcfg.
  exists (constructed camera (_config (self st))).
  split; [apply camera_registered_run|]. rewrite Hcfg.
  intros h (category & i & t & sub & Hit & Hsub & ->)%elem_of_constructed.
  simpl. intros ->. simpl in *. split.
  - apply (not_reserved_in _ t Hr). by apply list_elem_of_lookup_2 in Hit.
  - intros next Hnext. split.
    + intros Heq.
      assert (i = S i); [|lia].
      apply (NoDup_lookup _ _ _ (path t) Hn);
        rewrite list_lookup_fmap; [by rewrite Hit | by rewrite Hnext, Heq].
    + by apply (Hm i).
Qed.

(** [face_override_config] passes, and its recordings run from [/ssd] to
    [/hdd]. *)
Lemma validated_recordings_handlers_witness :
  let st := blank_state face_override_config (mkStore (Some "head") true)
                        "head" no_faults in
  ∃ hs, _camera_registered "front_door" st = (inr tt, add_handlers hs st) ∧
    ∀ h, h ∈ hs → th_category h = recordings →
      ¬ reserved (path (th_tier h)) ∧
      ∀ next, th_next_tier h = Some next →
        path (th_tier h) ≠ path next ∧
        ((0 < age next)%Z → (age (th_tier h) < age next)%Z).
Proof.
  intros st.
  apply (validated_recordings_handlers (mkConfig face_override_config)).
  - vm_compute. reflexivity.
  - reflexivity.
Defined.

Lemma setup_recordings_tiers config st r st' :
  setup config st = (r, st') →
  _recordings_tiers (self st') =
    recordings_tiers (cfg_recordings (storage config)).
Proof.
  open_state st. run_storage. destruct ce; simpl.
  { by intros [= <- <-]. }
  destruct rev as [rev|]; simpl.
  - case_bool_decide; simpl.
    + destruct ue; simpl; by intros [= <- <-].
    + by intros [= <- <-].
  - destruct cae; simpl; [by intros [= <- <-]|].
    destruct se; simpl; by intros [= <- <-].
Qed.

Section PathAccessorProperties.

Variable util_get_recordings_path : Tier → Camera → string.
Variable util_get_segments_path : Tier → Camera → string.

Lemma path_accessors_run camera st :
  match _recordings_tiers (self st) with
  | [] =>
      get_recordings_path util_get_recordings_path camera st
        = (inl IndexError, st) ∧
      get_segments_path util_get_segments_path camera st
        = (inl IndexError, st)
  | tier :: _ =>
      get_recordings_path util_get_recordings_path camera st
        = (inr (util_get_recordings_path tier camera), st) ∧
      get_segments_path util_get_segments_path camera st
        = (inr (util_get_segments_path tier camera), st)
  end.
Proof.
  unfold get_recordings_path, get_segments_path, subscript, bind, gets.
  simpl. by destruct (_recordings_tiers (self st)).
Qed.

(** X17.  After [setup] has returned, the recordings path and the segments
    path of a camera are both computed from the first tier of the recordings
    chain of the configuration, and from nothing else of it; the state is
    not changed.  When that chain is empty, which [validate_tiers] lets
    pass, both accessors raise [IndexError]. *)
Theorem path_accessors_after_setup config camera st st' :
  setup config st = (inr true, st') →
  match recordings_tiers (cfg_recordings (storage config)) with
  | [] =>
      (validate_tiers config = inr config) ∧
      get_recordings_path util_get_recordings_path camera st'
        = (inl IndexError, st') ∧
      get_segments_path util_get_segments_path camera st'
        = (inl IndexError, st')
  | tier :: _ =>
      get_recordings_path util_get_recordings_path camera st'
        = (inr (util_get_recordings_path tier camera), st') ∧
      get_segments_path util_get_segments_path camera st'
        = (inr (util_get_segments_path tier camera), st')
  end.
Proof.
  intros Hrun. pose proof (path_accessors_run camera st') as H.
  rewrite (setup_recordings_tiers _ _ _ _ Hrun) in H.
  destruct (recordings_tiers _) as [|tier rest] eqn:Hr; [|done].
  split; [|done]. unfold validate_tiers. by rewrite Hr.
Qed.

End PathAccessorProperties.

(** A configuration without recordings tier, set up on a store at head;
    the path functions are stand-ins that append a directory and the name
    of the camera to the path of the tier. *)
Lemma path_accessors_after_setup_witness :
  let config := mkConfig (mkStorageConfig
    (mkRecordings [] DEFAULT_CREATE_EVENT_CLIP DEFAULT_TYPE)
    (mkSnapshots DEFAULT_SNAPSHOTS_TIERS None None)) in
  let f := λ (t : Tier) (c : Camera), path t +:+ "recordings/" +:+ c in
  let g := λ (t : Tier) (c : Camera), path t +:+ "segments/" +:+ c in
  ∃ st',
    setup config (blank_state (storage config) (mkStore (Some "head") true)
                              "head" no_faults) = (inr true, st') ∧
    validate_tiers config = inr config ∧
    get_recordings_path f "front_door" st' = (inl IndexError, st') ∧
    get_segments_path g "front_door" st' = (inl IndexError, st').
Proof.
  intros config f g. eexists. split; [reflexivity|].
  apply (path_accessors_after_setup f g config "front_door"
           (blank_state (storage config) (mkStore (Some "head") true)
                        "head" no_faults)).
  reflexivity.
Defined.

(** ** Restart after a failed fresh create *)

(** X18.  A fresh create that failed is tried again at the next start: the
    failure was swallowed and left the store without revision, so when
    [create_database] runs again, on a database layer that now works, it
    creates the tables and stamps head once more and leaves the store at
    head. *)
Theorem fresh_create_retried st cause :
  connect_error (faults st) = None →
  revision (store st) = None →
  create_all_error (faults st) = Some cause ∨
    (create_all_error (faults st) = None ∧
     stamp_error (faults st) = Some cause) →
  ∃ st1 st2,
    create_database st = (inr tt, st1) ∧
    revision (store st1) = None ∧
    create_database (set_faults no_faults st1) = (inr tt, st2) ∧
    calls st2 =
      calls st1 ++
        [CreateEngine DATABASE_URL; Connect; CreateAll; Stamp (head st)] ∧
    store st2 = mkStore (Some (head st)) true.
Proof.
  intros Hc Hrev [Hca|[Hca Hs]]; open_state st; run_storage;
    eexists _, _; (split; [reflexivity|]); simpl; (split; [done|]);
    (split; [reflexivity|]); simpl; by rewrite <- !app_assoc.
Qed.

(** A first start on a read-only database, a second one after repair. *)
Lemma fresh_create_retried_witness :
  ∃ st1 st2,
    create_database
      (blank_state (storage snapshots_in_tmp) (mkStore None false) "head"
                   (mkFaults None None (Some "read-only") None))
      = (inr tt, st1) ∧
    revision (store st1) = None ∧
    create_database (set_faults no_faults st1) = (inr tt, st2) ∧
    calls st2 =
      calls st1 ++
        [CreateEngine DATABASE_URL; Connect; CreateAll; Stamp "head"] ∧
    store st2 = mkStore (Some "head") true.
Proof.
  apply (fresh_create_retried
           (blank_state (storage snapshots_in_tmp) (mkStore None false)
              "head" (mkFaults None None (Some "read-only") None))
           "read-only" eq_refl eq_refl).
  right. split; reflexivity.
Defined.
